(** * UndiciConnection: a pooled HTTP connection to one cluster node

    A shallow embedding of [src/connection/UndiciConnection.ts]: the
    constructor, the [request] method cut at its suspension points, the
    timer callback, and [isUndiciAgentOptions].

    JavaScript strings are sequences of UTF-16 code units, objects used as
    dictionaries are finite maps, and the mutable objects that several
    calls can reach (the connection's event emitter, abort controllers,
    pending timers, the [timedout] variable captured by a timer callback)
    live in one explicit [world] that every operation threads through. *)

From Stdlib Require Import ZArith QArith Ascii String.
From Stdlib Require Import Strings.Byte.
From stdpp Require Import gmap strings list.

Local Open Scope N_scope.

(** ** JavaScript strings *)

(** A string is the list of its UTF-16 code units. *)
Abbreviation jsstring := (list N).

Definition lit (s : string) : jsstring :=
  map N_of_ascii (list_ascii_of_string s).
Arguments lit : simpl never.

(** [s.startsWith(sub)] and [s.includes(sub)]. *)
Fixpoint startsWith (s sub : jsstring) {struct sub} : bool :=
  match sub, s with
  | [], _ => true
  | _ :: _, [] => false
  | c :: sub', d :: s' => (c =? d) && startsWith s' sub'
  end.

Fixpoint includes (s sub : jsstring) : bool :=
  startsWith s sub ||
  match s with
  | [] => false
  | _ :: s' => includes s' sub
  end.

(** [INVALID_PATH_REGEX]: a negated class over the range u0021-u00ff;
    without the [u] flag it is matched against single code units. *)
Definition invalid_path_char (c : N) : bool := (c <? 0x21) || (0xff <? c).

Definition INVALID_PATH_REGEX_test (s : jsstring) : bool :=
  existsb invalid_path_char s.

(** ** JavaScript numbers

    Only the order structure of numbers matters to this file: a number is
    NaN, an infinity, or a finite value, and every comparison with NaN is
    false. *)
Inductive number :=
| NaN
| Infinity (negative : bool)
| Finite (q : Q).

Definition of_Z (z : Z) : number := Finite (inject_Z z).

(** [a > b] *)
Definition number_gt (a b : number) : bool :=
  match a, b with
  | NaN, _ | _, NaN => false
  | Infinity false, Infinity false => false
  | Infinity false, _ => true
  | Infinity true, _ => false
  | Finite _, Infinity neg => neg
  | Finite x, Finite y => negb (Qle_bool x y)
  end.

(** ** The host runtime

    What Node.js itself supplies to the module: the string and number
    built-ins it calls and the two [buffer.constants] it reads at load
    time.  Nothing is assumed about them. *)
Record Runtime := {
  (** [String.prototype.toLowerCase] *)
  toLowerCase : jsstring → jsstring;
  (** [Number(s)] on a string *)
  Number : jsstring → number;
  (** the string a template literal produces for a number *)
  numberToString : number → jsstring;
  (** the strings a readable stream yields for its raw chunks after
      [setEncoding('utf8')] *)
  utf8Chunks : list (list byte) → list jsstring;
  (** [buffer.constants.MAX_LENGTH] *)
  MAX_BUFFER_LENGTH : Z;
  (** [buffer.constants.MAX_STRING_LENGTH] *)
  MAX_STRING_LENGTH : Z
}.

(** ** Errors *)

Inductive error :=
| ConfigurationError (message : jsstring)
| RequestAbortedError (message : jsstring)
| ConnectionError (message : jsstring)
| TimeoutError (message : jsstring)
| TypeError (message : jsstring).

(** The four error classes of [../errors] the module imports. *)
Definition is_domain_error (e : error) : bool :=
  match e with
  | TypeError _ => false
  | _ => true
  end.

(** What the transport rejects with, or a body stream throws: an object
    whose [code] and [message] properties are read. *)
Record TransportError := {
  code : option jsstring;
  message : jsstring
}.

(** ** Values and objects *)

Inductive jsvalue :=
| JUndefined
| JNull
| JBoolean (b : bool)
| JNumber (n : number)
| JString (s : jsstring)
| JRef (id : nat).

(** [v != null] *)
Definition not_nullish (v : jsvalue) : bool :=
  match v with
  | JUndefined | JNull => false
  | _ => true
  end.

(** Reading a property of a dictionary-like object. *)
Definition prop (o : gmap jsstring jsvalue) (k : string) : jsvalue :=
  default JUndefined (o !! lit k).

(** [opts.agent]: the union type
    [HttpAgentOptions | UndiciAgentOptions | agentFn | boolean]. *)
Inductive agent_arg :=
| AgentFunction
| AgentBoolean (b : bool)
| AgentOptions (o : gmap jsstring jsvalue).

Record ConnectionOptions := {
  opts_proxy : jsvalue;
  opts_agent : option agent_arg
}.

(** What [super(opts)] leaves in [this]; the base class lives in another
    module and is taken as given. *)
Record BaseConnection := {
  url : jsstring;
  ssl : jsvalue;
  headers : gmap jsstring jsstring;
  timeout : Z
}.

Record Pool := {
  pool_url : jsstring;
  pool_options : gmap jsstring jsvalue
}.

Record Connection := {
  base : BaseConnection;
  kEmitter : nat;
  pool : nat
}.

(** ** Requests *)

(** [signal]: an abort controller's signal or an event emitter. *)
Inductive signal :=
| ControllerSignal (controller : nat)
| EmitterSignal (emitter : nat).

Global Instance signal_eq_dec : EqDecision signal.
Proof. solve_decision. Defined.

Record ConnectionRequestParams := {
  params_method : jsstring;
  params_path : jsstring;
  params_querystring : option jsstring;
  params_headers : option (gmap jsstring jsstring);
  params_body : jsvalue;
  params_timeout : option Z;
  params_abortController : option nat
}.

Record RequestParams := {
  rp_method : jsstring;
  rp_path : jsstring;
  rp_headers : gmap jsstring jsstring;
  rp_body : jsvalue;
  rp_signal : signal
}.

(** The callback given to [setTimeout]: a closure over the activation's
    [timedout], [params.abortController] and [this[kEmitter]]. *)
Record Timer := {
  timer_delay : Z;
  timer_timedout : nat;
  timer_controller : option nat;
  timer_emitter : nat
}.

(** The mutable objects and the environment's bookkeeping. *)
Record world := {
  (** next unused identity for emitters, pools, timers and activations *)
  fresh : nat;
  (** pools created so far, oldest first *)
  pools : list (nat * Pool);
  (** pending timeouts, by the id [setTimeout] returned *)
  timers : gmap nat Timer;
  (** the [timedout] variable of every activation of [request] *)
  timedout : gmap nat bool;
  (** abort controllers whose [abort()] has been called *)
  aborted : gset nat;
  (** events emitted on emitters, oldest first *)
  emitted : list (nat * jsstring);
  (** [pool.request] calls made, oldest first: pool, activation, argument *)
  dispatched : list (nat * nat * RequestParams);
  (** the requests the transport has not settled yet, with the signal
      each one listens on *)
  inflight : gmap nat signal;
  (** in-flight requests whose signal has been triggered *)
  cancelled : gset nat
}.

Definition empty_world : world :=
  {| fresh := 0; pools := []; timers := ∅; timedout := ∅; aborted := ∅;
     emitted := []; dispatched := []; inflight := ∅; cancelled := ∅ |}.

Definition with_fresh (n : nat) (w : world) : world :=
  {| fresh := n; pools := pools w; timers := timers w;
     timedout := timedout w; aborted := aborted w; emitted := emitted w;
     dispatched := dispatched w; inflight := inflight w;
     cancelled := cancelled w |}.

Definition with_pools (l : list (nat * Pool)) (w : world) : world :=
  {| fresh := fresh w; pools := l; timers := timers w;
     timedout := timedout w; aborted := aborted w; emitted := emitted w;
     dispatched := dispatched w; inflight := inflight w;
     cancelled := cancelled w |}.

Definition with_timers (m : gmap nat Timer) (w : world) : world :=
  {| fresh := fresh w; pools := pools w; timers := m;
     timedout := timedout w; aborted := aborted w; emitted := emitted w;
     dispatched := dispatched w; inflight := inflight w;
     cancelled := cancelled w |}.

Definition with_timedout (m : gmap nat bool) (w : world) : world :=
  {| fresh := fresh w; pools := pools w; timers := timers w;
     timedout := m; aborted := aborted w; emitted := emitted w;
     dispatched := dispatched w; inflight := inflight w;
     cancelled := cancelled w |}.

Definition with_aborted (s : gset nat) (w : world) : world :=
  {| fresh := fresh w; pools := pools w; timers := timers w;
     timedout := timedout w; aborted := s; emitted := emitted w;
     dispatched := dispatched w; inflight := inflight w;
     cancelled := cancelled w |}.

Definition with_emitted (l : list (nat * jsstring)) (w : world) : world :=
  {| fresh := fresh w; pools := pools w; timers := timers w;
     timedout := timedout w; aborted := aborted w; emitted := l;
     dispatched := dispatched w; inflight := inflight w;
     cancelled := cancelled w |}.

Definition with_dispatched (l : list (nat * nat * RequestParams))
    (w : world) : world :=
  {| fresh := fresh w; pools := pools w; timers := timers w;
     timedout := timedout w; aborted := aborted w; emitted := emitted w;
     dispatched := l; inflight := inflight w; cancelled := cancelled w |}.

Definition with_inflight (m : gmap nat signal) (w : world) : world :=
  {| fresh := fresh w; pools := pools w; timers := timers w;
     timedout := timedout w; aborted := aborted w; emitted := emitted w;
     dispatched := dispatched w; inflight := m; cancelled := cancelled w |}.

Definition with_cancelled (s : gset nat) (w : world) : world :=
  {| fresh := fresh w; pools := pools w; timers := timers w;
     timedout := timedout w; aborted := aborted w; emitted := emitted w;
     dispatched := dispatched w; inflight := inflight w; cancelled := s |}.

(** A function either returns or throws. *)
Inductive result (A : Type) :=
| Return (a : A)
| Throw (e : error).
Arguments Return {A} a.
Arguments Throw {A} e.

(** ** The constructor *)

Definition isUndiciAgentOptions (opts : gmap jsstring jsvalue) : bool :=
  if not_nullish (prop opts "keepAlive") then false
  else if not_nullish (prop opts "keepAliveMsecs") then false
  else if not_nullish (prop opts "maxSockets") then false
  else if not_nullish (prop opts "maxFreeSockets") then false
  else if not_nullish (prop opts "scheduling") then false
  else if not_nullish (prop opts "proxy") then false
  else true.

(** [typeof a === 'function' || typeof a === 'boolean'] *)
Definition function_or_boolean (a : option agent_arg) : bool :=
  match a with
  | Some AgentFunction | Some (AgentBoolean _) => true
  | _ => false
  end.

(** The own properties of [opts.agent], as a property read or an object
    spread sees them; null and undefined spread to nothing. *)
Definition agent_props (a : option agent_arg) : gmap jsstring jsvalue :=
  match a with
  | Some (AgentOptions o) => o
  | _ => ∅
  end.

Definition pool_defaults (this : BaseConnection) : gmap jsstring jsvalue :=
  list_to_map
    [ (lit "tls", ssl this);
      (lit "keepAliveTimeout", JNumber (of_Z 4000));
      (lit "keepAliveMaxTimeout", JNumber (of_Z 600000));
      (lit "keepAliveTimeoutThreshold", JNumber (of_Z 1000));
      (lit "pipelining", JNumber (of_Z 1));
      (lit "maxHeaderSize", JNumber (of_Z 16384));
      (lit "connections", JNumber (of_Z 256));
      (lit "headersTimeout", JNumber (of_Z (timeout this)));
      (lit "bodyTimeout", JNumber (of_Z (timeout this))) ].

(** [new Connection(opts)], from the point where [super(opts)] has
    returned [this]. *)
Definition Connection_new (this : BaseConnection) (opts : ConnectionOptions)
    (w : world) : world * result Connection :=
  if not_nullish (opts_proxy opts) then
    (w, Throw (ConfigurationError
                 (lit "Undici connection can't work with proxies")))
  else if function_or_boolean (opts_agent opts) then
    (w, Throw (ConfigurationError
                 (lit "Undici connection agent options can't be a function or a boolean")))
  else if bool_decide (opts_agent opts ≠ None)
          && negb (isUndiciAgentOptions (agent_props (opts_agent opts))) then
    (w, Throw (ConfigurationError
                 (lit "Bad agent configuration for Undici agent")))
  else
    let emitter := fresh w in
    let p := S emitter in
    let created :=
      {| pool_url := url this;
         pool_options := agent_props (opts_agent opts) ∪ pool_defaults this |} in
    (with_pools (pools w ++ [(p, created)]) (with_fresh (S p) w),
     Return {| base := this; kEmitter := emitter; pool := p |}).

(** ** Signals, timers and the transport's side of cancellation *)

(** The transport listens on the signal of every request it has in
    flight; triggering a signal reaches all of them. *)
Definition listeners (s : signal) (w : world) : gset nat :=
  dom (filter (λ kv, kv.2 = s) (inflight w)).

Definition trigger (s : signal) (w : world) : world :=
  with_cancelled (cancelled w ∪ listeners s w) w.

(** [controller.abort()] *)
Definition abort (controller : nat) (w : world) : world :=
  trigger (ControllerSignal controller)
    (with_aborted (aborted w ∪ {[controller]}) w).

(** [emitter.emit(name)] *)
Definition emit (emitter : nat) (name : string) (w : world) : world :=
  let w' := with_emitted (emitted w ++ [(emitter, lit name)]) w in
  if String.eqb name "abort" then trigger (EmitterSignal emitter) w' else w'.

(** [clearTimeout(id)] *)
Definition clearTimeout (id : nat) (w : world) : world :=
  with_timers (delete id (timers w)) w.

(** The body of the arrow function handed to [setTimeout]. *)
Definition timeout_callback (t : Timer) (w : world) : world :=
  let w' := with_timedout (<[timer_timedout t := true]> (timedout w)) w in
  match timer_controller t with
  | Some controller => abort controller w'
  | None => emit (timer_emitter t) "abort" w'
  end.

(** The event loop runs a pending timeout: it is one-shot, so it leaves
    the pending set, and its callback runs. *)
Definition fire (id : nat) (w : world) : world :=
  match timers w !! id with
  | Some t => timeout_callback t (clearTimeout id w)
  | None => w
  end.

(** ** [request], up to its first [await] *)

Definition final_path (params : ConnectionRequestParams) : jsstring :=
  params_path params ++
  match params_querystring params with
  | None => []
  | Some q => if bool_decide (q = []) then [] else lit "?" ++ q
  end.

(** [Object.assign({}, this.headers, params.headers)]: later sources
    overwrite earlier ones, and an undefined source is skipped. *)
Definition final_headers (conn : Connection)
    (params : ConnectionRequestParams) : gmap jsstring jsstring :=
  default ∅ (params_headers params) ∪ headers (base conn).

Definition governing_signal (conn : Connection)
    (params : ConnectionRequestParams) : signal :=
  match params_abortController params with
  | Some controller => ControllerSignal controller
  | None => EmitterSignal (kEmitter conn)
  end.

Definition requestParams (conn : Connection)
    (params : ConnectionRequestParams) : RequestParams :=
  {| rp_method := params_method params;
     rp_path := final_path params;
     rp_headers := final_headers conn params;
     rp_body := params_body params;
     rp_signal := governing_signal conn params |}.

(** [params.timeout != null && params.timeout !== this.timeout] *)
Definition timeout_override (conn : Connection)
    (params : ConnectionRequestParams) : option Z :=
  match params_timeout params with
  | Some t => if bool_decide (t ≠ timeout (base conn)) then Some t else None
  | None => None
  end.

(** The local variables a suspended call keeps: the cell of [timedout]
    and [timeoutId]. *)
Record Activation := {
  act_timedout : nat;
  act_timeoutId : option nat
}.

(** [let timedout = false; let timeoutId; if (...) timeoutId = setTimeout(...)] *)
Definition arm (conn : Connection) (params : ConnectionRequestParams)
    (w : world) : world * Activation :=
  let cell := fresh w in
  let w1 := with_timedout (<[cell := false]> (timedout w))
              (with_fresh (S cell) w) in
  match timeout_override conn params with
  | Some delay =>
      let id := fresh w1 in
      let t := {| timer_delay := delay; timer_timedout := cell;
                  timer_controller := params_abortController params;
                  timer_emitter := kEmitter conn |} in
      (with_timers (<[id := t]> (timers w1)) (with_fresh (S id) w1),
       {| act_timedout := cell; act_timeoutId := Some id |})
  | None => (w1, {| act_timedout := cell; act_timeoutId := None |})
  end.

(** [this.pool.request(requestParams)]: the call is recorded and the
    transport starts listening on the signal. *)
Definition pool_request (conn : Connection) (a : Activation)
    (rp : RequestParams) (w : world) : world :=
  with_inflight (<[act_timedout a := rp_signal rp]> (inflight w))
    (with_dispatched (dispatched w ++ [(pool conn, act_timedout a, rp)]) w).

(** How the synchronous prefix of [request] ends. *)
Inductive begun :=
| Suspended
| Threw (e : error).

(** The synchronous prefix of [request]: it either throws or hands the
    request to the pool and suspends at the [await].  The activation is
    returned in both cases: a timer callback may still hold it. *)
Definition request_begin (conn : Connection)
    (params : ConnectionRequestParams) (w : world)
    : world * Activation * begun :=
  let rp := requestParams conn params in
  let '(w1, a) := arm conn params w in
  if INVALID_PATH_REGEX_test (rp_path rp) then
    (w1, a, Threw (TypeError (lit "ERR_UNESCAPED_CHARACTERS: " ++ rp_path rp)))
  else
    (pool_request conn a rp w1, a, Suspended).

(** ** [request], when the transport rejects *)

Definition clear_pending (a : Activation) (w : world) : world :=
  match act_timeoutId a with
  | Some id => clearTimeout id w
  | None => w
  end.

(** The transport settles a request and stops listening on its signal. *)
Definition settle (a : Activation) (w : world) : world :=
  with_inflight (delete (act_timedout a) (inflight w)) w.

(** The [switch (err.code)] of the first [catch]. *)
Definition classify (timedout : bool) (err : TransportError) : error :=
  if bool_decide (code err = Some (lit "UND_ERR_ABORTED")) then
    if timedout then TimeoutError (lit "Request timed out")
    else RequestAbortedError (lit "Request aborted")
  else if bool_decide (code err = Some (lit "UND_ERR_HEADERS_TIMEOUT")) then
    TimeoutError (lit "Request timed out")
  else ConnectionError (message err).

Definition read_timedout (a : Activation) (w : world) : bool :=
  default false (timedout w !! act_timedout a).

Definition request_rejected (a : Activation) (err : TransportError)
    (w : world) : world * error :=
  let w1 := clear_pending a (settle a w) in
  (w1, classify (read_timedout a w1) err).

(** ** [request], when the transport resolves *)

(** A response body: the raw chunks the stream will yield, and the error
    it throws after them, if any. *)
Record BodyStream := {
  chunks : list (list byte);
  failure : option TransportError
}.

(** Every header has one string as its value.  A header the transport
    hands over as an array of strings is outside this model: on such a
    content-encoding the [toLowerCase] call, which stands outside both
    [try] blocks, throws a TypeError of its own. *)
Record Response := {
  statusCode : Z;
  response_headers : gmap jsstring jsstring;
  body : BodyStream
}.

(** [body: Buffer | string] *)
Inductive Body :=
| BufferBody (bytes : list byte)
| StringBody (text : jsstring).

Record ConnectionRequestResponse := {
  res_statusCode : Z;
  res_headers : gmap jsstring jsstring;
  res_body : Body
}.

(** What a call does to the response stream and the diagnostic emitter,
    in order. *)
Inductive effect :=
| Destroy
| Diagnostic (event : jsstring)
| SetEncoding (encoding : jsstring)
| Read (chunk : list byte).

Definition reads_body (e : effect) : bool :=
  match e with
  | Read _ => true
  | _ => false
  end.

Section WithRuntime.

Context (rt : Runtime).

Definition contentEncoding (h : gmap jsstring jsstring) : jsstring :=
  toLowerCase rt (default [] (h !! lit "content-encoding")).

Definition isCompressed (h : gmap jsstring jsstring) : bool :=
  includes (contentEncoding h) (lit "gzip")
  || includes (contentEncoding h) (lit "deflate").

Definition too_big (n : number) (what : string) (ceiling : Z) : jsstring :=
  lit "The content length (" ++ numberToString rt n
  ++ lit ") is bigger than the maximum allowed " ++ lit what ++ lit " ("
  ++ numberToString rt (of_Z ceiling) ++ lit ")".

(** The [if (response.headers['content-length'] !== undefined)] block:
    the error it throws, if it throws. *)
Definition check_content_length (h : gmap jsstring jsstring)
    : option error :=
  match h !! lit "content-length" with
  | Some v =>
      let contentLength := Number rt v in
      if isCompressed h
         && number_gt contentLength (of_Z (MAX_BUFFER_LENGTH rt)) then
        Some (RequestAbortedError
                (too_big contentLength "buffer" (MAX_BUFFER_LENGTH rt)))
      else if number_gt contentLength (of_Z (MAX_STRING_LENGTH rt)) then
        Some (RequestAbortedError
                (too_big contentLength "string" (MAX_STRING_LENGTH rt)))
      else None
  | None => None
  end.

(** The second [try]: the [for await] loop over the body and the
    [catch] around it.  The payload is put together without bound: a
    body that runs past what the engine allows for one string or one
    buffer, where appending throws inside the [try] and the chunks that
    follow stay unread, is outside this model. *)
Definition consume (r : Response)
    : list effect * result ConnectionRequestResponse :=
  let read := map Read (chunks (body r)) in
  let finish payload :=
    match failure (body r) with
    | Some err => Throw (ConnectionError (message err))
    | None =>
        Return {| res_statusCode := statusCode r;
                  res_headers := response_headers r;
                  res_body := payload |}
    end in
  if isCompressed (response_headers r) then
    (read, finish (BufferBody (concat (chunks (body r)))))
  else
    (SetEncoding (lit "utf8") :: read,
     finish (StringBody (concat (utf8Chunks rt (chunks (body r)))))).

Definition request_resolved (a : Activation) (r : Response) (w : world)
    : world * (list effect * result ConnectionRequestResponse) :=
  let w1 := clear_pending a (settle a w) in
  match check_content_length (response_headers r) with
  | Some e => (w1, ([Destroy], Throw e))
  | None =>
      let '(e, res) := consume r in
      (w1, (Diagnostic (lit "deserialization") :: e, res))
  end.

End WithRuntime.

(** ** A runtime for closed examples

    ASCII-only stand-ins for the built-ins, with the ceilings of a 64-bit
    Node.js 14; used to run the definitions on concrete data. *)

Definition ascii_lower (c : N) : N :=
  if (0x41 <=? c) && (c <=? 0x5a) then c + 0x20 else c.

Definition digit_value (c : N) : option Z :=
  if (0x30 <=? c) && (c <=? 0x39) then Some (Z.of_N (c - 0x30)) else None.

Fixpoint decimal (acc : Z) (s : jsstring) : option Z :=
  match s with
  | [] => Some acc
  | c :: s' =>
      match digit_value c with
      | Some d => decimal (10 * acc + d) s'
      | None => None
      end
  end.

Definition sample_Number (s : jsstring) : number :=
  match s with
  | [] => of_Z 0
  | _ => match decimal 0 s with
         | Some z => of_Z z
         | None => NaN
         end
  end.

Fixpoint digits (fuel : nat) (p : N) (acc : jsstring) : jsstring :=
  match fuel with
  | O => acc
  | S fuel' =>
      let acc' := (0x30 + p mod 10) :: acc in
      if p / 10 =? 0 then acc' else digits fuel' (p / 10) acc'
  end.

Definition sample_numberToString (n : number) : jsstring :=
  match n with
  | NaN => lit "NaN"
  | Infinity false => lit "Infinity"
  | Infinity true => lit "-Infinity"
  | Finite q =>
      let z := (Qnum q / Z.pos (Qden q))%Z in
      (if (z <? 0)%Z then lit "-" else [])
      ++ digits (S (N.to_nat (N.log2 (Z.abs_N z)))) (Z.abs_N z) []
  end.

Definition sample_runtime : Runtime :=
  {| toLowerCase := map ascii_lower;
     Number := sample_Number;
     numberToString := sample_numberToString;
     utf8Chunks := map (map Byte.to_N);
     MAX_BUFFER_LENGTH := 4294967296;
     MAX_STRING_LENGTH := 536870888 |}.

(** ** Vocabulary of the statements *)

(** The options that belong to the [http.Agent] based connection. *)
Definition reserved_options : list string :=
  ["keepAlive"; "keepAliveMsecs"; "maxSockets"; "maxFreeSockets";
   "scheduling"; "proxy"]%string.

(** The construction-time settings the constructor refuses. *)
Definition refused (opts : ConnectionOptions) : Prop :=
  not_nullish (opts_proxy opts) = true
  ∨ opts_agent opts = Some AgentFunction
  ∨ (∃ b, opts_agent opts = Some (AgentBoolean b))
  ∨ (∃ o k, opts_agent opts = Some (AgentOptions o)
            ∧ k ∈ reserved_options ∧ not_nullish (prop o k) = true).

(** The headers a call supplies for one key, if any. *)
Definition per_call_header (params : ConnectionRequestParams)
    (k : jsstring) : option jsstring :=
  match params_headers params with
  | Some h => h !! k
  | None => None
  end.

Inductive error_class :=
| IsConfigurationError
| IsRequestAbortedError
| IsConnectionError
| IsTimeoutError
| IsTypeError.

Definition class_of (e : error) : error_class :=
  match e with
  | ConfigurationError _ => IsConfigurationError
  | RequestAbortedError _ => IsRequestAbortedError
  | ConnectionError _ => IsConnectionError
  | TimeoutError _ => IsTimeoutError
  | TypeError _ => IsTypeError
  end.

(** The response as it would be had no length been declared. *)
Definition without_content_length (r : Response) : Response :=
  {| statusCode := statusCode r;
     response_headers := delete (lit "content-length") (response_headers r);
     body := body r |}.

(** What a caller sees of a result apart from the headers handed back. *)
Definition status_and_body (res : result ConnectionRequestResponse)
    : result (Z * Body) :=
  match res with
  | Return o => Return (res_statusCode o, res_body o)
  | Throw e => Throw e
  end.

(** ** Interleavings

    Between the suspension points of one call anything else may run:
    other calls start, timers fire, callers abort their controllers,
    the transport settles requests, connections are built. *)

Inductive event :=
| Construct (this : BaseConnection) (opts : ConnectionOptions)
| Begin (conn : Connection) (params : ConnectionRequestParams)
| Fire (id : nat)
| CallerAborts (controller : nat)
| Rejected (a : Activation) (err : TransportError)
| Resolved (a : Activation).

Definition step (w : world) (ev : event) : world :=
  match ev with
  | Construct this opts => (Connection_new this opts w).1
  | Begin conn params => (request_begin conn params w).1.1
  | Fire id => fire id w
  | CallerAborts c => abort c w
  | Rejected a err => (request_rejected a err w).1
  | Resolved a => clear_pending a (settle a w)
  end.

Definition run (evs : list event) (w : world) : world := foldl step w evs.

(** Identities are handed out in increasing order, so what a pending
    timer refers to was allocated before. *)
Definition timers_allocated (w : world) : Prop :=
  ∀ id t, timers w !! id = Some t →
          (id < fresh w)%nat ∧ (timer_timedout t < fresh w)%nat.

(** What stays true of a suspended call [a] while its own timer has not
    run: its [timedout] is false, and no pending timer but its own
    refers to that variable. *)
Definition undisturbed (a : Activation) (w : world) : Prop :=
  (act_timedout a < fresh w)%nat
  ∧ read_timedout a w = false
  ∧ timers_allocated w
  ∧ (∀ id t, timers w !! id = Some t →
              timer_timedout t = act_timedout a → act_timeoutId a = Some id)
  ∧ ∀ id, act_timeoutId a = Some id →
          (id < fresh w)%nat
          ∧ ∀ t, timers w !! id = Some t → timer_timedout t = act_timedout a.

(** Once set, a call's [timedout] stays set. *)
Definition timed_out (a : Activation) (w : world) : Prop :=
  (act_timedout a < fresh w)%nat ∧ read_timedout a w = true.

(** ** Data for closed examples *)

Definition node : BaseConnection :=
  {| url := lit "http://localhost:9200/";
     ssl := JNull;
     headers := {[ lit "accept" := lit "application/json" ]};
     timeout := 30000 |}.

Definition plain_options : ConnectionOptions :=
  {| opts_proxy := JUndefined; opts_agent := None |}.

(** The connection [new Connection(plain_options)] yields in the empty
    world, and the world it leaves. *)
Definition node_connection : Connection :=
  {| base := node; kEmitter := 0; pool := 1 |}.

Definition node_world : world :=
  (Connection_new node plain_options empty_world).1.

Definition get (path : string) (q : option string) (t : option Z)
    (controller : option nat) : ConnectionRequestParams :=
  {| params_method := lit "GET";
     params_path := lit path;
     params_querystring := lit <$> q;
     params_headers := None;
     params_body := JUndefined;
     params_timeout := t;
     params_abortController := controller |}.

Definition UND_ERR_ABORTED : TransportError :=
  {| code := Some (lit "UND_ERR_ABORTED"); message := lit "Request aborted" |}.

(** A path with a space in it, sent with a 50 ms timeout. *)
Definition spaced_path : ConnectionRequestParams :=
  get "/my index/_search" (Some "q=1"%string) (Some 50%Z) None.

Definition bytes_of (s : string) : list byte := list_byte_of_string s.

(** A gzip response that declares more bytes than a buffer can hold. *)
Definition huge_gzip : Response :=
  {| statusCode := 200;
     response_headers := {[ lit "content-encoding" := lit "GZip";
                            lit "content-length" := lit "99999999999" ]};
     body := {| chunks := [bytes_of "abc"]; failure := None |} |}.

Definition idle : Activation := {| act_timedout := 2; act_timeoutId := None |}.

(** A text response whose declared length is not a number. *)
Definition odd_length : Response :=
  {| statusCode := 200;
     response_headers := {[ lit "content-length" := lit "twelve" ]};
     body := {| chunks := [bytes_of "hello "; bytes_of "world"];
                failure := None |} |}.

(** The search response of the specification's first scenario. *)
Definition ok_true : list byte :=
  [x7b; x22; x6f; x6b; x22; x3a; x74; x72; x75; x65; x7d].

Definition small_json : Response :=
  {| statusCode := 200;
     response_headers := {[ lit "content-length" := lit "11" ]};
     body := {| chunks := [ok_true]; failure := None |} |}.

(** ** [close] *)

(** A node as its owner sees it: the world of its calls, and the
    [pool.close()] calls made so far, oldest first. *)
Record node_state := {
  ns_world : world;
  ns_closing : list nat
}.

(** [close()]: the connection's pool is asked to close, and nothing
    else is done. *)
Definition close (conn : Connection) (s : node_state) : node_state :=
  {| ns_world := ns_world s; ns_closing := ns_closing s ++ [pool conn] |}.

(** ** More vocabulary *)

(** Every code unit lies in 0x21-0xFF. *)
Definition in_path_range (s : jsstring) : Prop :=
  ∀ c, c ∈ s → 0x21 ≤ c ∧ c ≤ 0xff.

Definition starts_call (ev : event) : bool :=
  match ev with
  | Begin _ _ => true
  | _ => false
  end.

(** The same response under another status code. *)
Definition with_statusCode (s : Z) (r : Response) : Response :=
  {| statusCode := s; response_headers := response_headers r; body := body r |}.

Definition with_res_statusCode (s : Z)
    (res : result ConnectionRequestResponse)
    : result ConnectionRequestResponse :=
  match res with
  | Return o => Return {| res_statusCode := s; res_headers := res_headers o;
                          res_body := res_body o |}
  | Throw e => Throw e
  end.

(** ** More data for closed examples *)

(** A search with a 50 ms timeout and abort controller 7, started on
    the fresh node, and a health check started right after it. *)
Definition search_call : world * Activation * begun :=
  request_begin node_connection
    (get "/_search" None (Some 50%Z) (Some 7%nat)) node_world.

Definition health_call : world * Activation * begun :=
  request_begin node_connection
    (get "/_cat/health" None None None) search_call.1.1.

(** * Properties *)

(** ** Strings *)

Lemma startsWith_prefix (s sub : jsstring) :
  startsWith s sub = true ↔ ∃ post, s = sub ++ post.
Proof.
  revert s. induction sub as [|c sub IH]; intros s; simpl.
  - split; [eauto | done].
  - destruct s as [|d s].
    + split; [done | intros [post Hpost]; discriminate].
    + rewrite andb_true_iff, N.eqb_eq, IH. split.
      * intros [-> [post ->]]. by exists post.
      * intros [post Hpost]. injection Hpost as -> ->. eauto.
Qed.

Lemma includes_infix (s sub : jsstring) :
  includes s sub = true ↔ ∃ pre post, s = pre ++ sub ++ post.
Proof.
  induction s as [|d s IH].
  - simpl. rewrite orb_false_r, startsWith_prefix. split.
    + intros [post Hpost]. by exists [], post.
    + intros (pre & post & Hs). symmetry in Hs.
      apply app_eq_nil in Hs as [-> Hs]. apply app_eq_nil in Hs as [-> _].
      by exists [].
  - cbn [includes]. rewrite orb_true_iff, IH, startsWith_prefix. split.
    + intros [[post Hpost] | (pre & post & ->)].
      * by exists [], post.
      * by exists (d :: pre), post.
    + intros (pre & post & Hs). destruct pre as [|e pre].
      * left. by exists post.
      * right. injection Hs as _ ->. by exists pre, post.
Qed.

Lemma INVALID_PATH_REGEX_test_true (s : jsstring) :
  INVALID_PATH_REGEX_test s = true ↔ ∃ c, c ∈ s ∧ (c < 0x21 ∨ 0xff < c).
Proof.
  unfold INVALID_PATH_REGEX_test, invalid_path_char.
  rewrite existsb_exists. split.
  - intros (c & Hin & Hc). exists c. rewrite list_elem_of_In.
    apply orb_true_iff in Hc. rewrite !N.ltb_lt in Hc. done.
  - intros (c & Hin & Hc). exists c. rewrite <- list_elem_of_In.
    by rewrite orb_true_iff, !N.ltb_lt.
Qed.

(** ** The constructor *)

Lemma isUndiciAgentOptions_false (o : gmap jsstring jsvalue) :
  isUndiciAgentOptions o = false
  ↔ ∃ k, k ∈ reserved_options ∧ not_nullish (prop o k) = true.
Proof.
  unfold isUndiciAgentOptions, reserved_options. split.
  - intros H.
    repeat match type of H with
           | (if not_nullish (prop o ?k) then _ else _) = _ =>
               destruct (not_nullish (prop o k)) eqn:?;
               [exists k; split; [repeat constructor | done]|]
           end.
    done.
  - intros (k & Hk & Hset).
    repeat (apply elem_of_cons in Hk as [->|Hk];
            [rewrite Hset; by repeat case_match|]).
    by apply elem_of_nil in Hk.
Qed.

(** C7: construction throws ConfigurationError exactly for a non-null
    proxy, agent options that are a function or a boolean, or agent
    options that give one of the six reserved options a value other
    than null or undefined; a failed construction leaves the world
    untouched, so no pool exists for it, and a successful one creates
    exactly one pool, bound to the node URL, whose options are the
    defaults overridden by the agent options. *)
Theorem constructor_refuses_or_creates_one_pool
    (this : BaseConnection) (opts : ConnectionOptions) (w : world) :
  match Connection_new this opts w with
  | (w', Throw e) =>
      refused opts ∧ (∃ m, e = ConfigurationError m) ∧ w' = w
  | (w', Return conn) =>
      ¬ refused opts
      ∧ pools w' = pools w ++ [(pool conn,
                     {| pool_url := url this;
                        pool_options := agent_props (opts_agent opts)
                                        ∪ pool_defaults this |})]
  end.
Proof.
  unfold Connection_new, refused.
  destruct (not_nullish (opts_proxy opts)) eqn:Hproxy.
  { split_and!; eauto. }
  destruct (opts_agent opts) as [[| b | o]|] eqn:Hagent; simpl.
  - split_and!; eauto.
  - split_and!; eauto 6.
  - destruct (isUndiciAgentOptions o) eqn:Hundici; simpl.
    + split; [|done]. intros [?|[?|[[b ?]|(o' & k & [= <-] & Hk & Hset)]]];
        try done.
      assert (isUndiciAgentOptions o = false) as Hno
        by (apply isUndiciAgentOptions_false; eauto).
      congruence.
    + apply isUndiciAgentOptions_false in Hundici as (k & Hk & Hset).
      split_and!; eauto 10.
  - split; [|done].
    intros [?|[?|[[b ?]|(o' & k & ? & _)]]]; done.
Qed.

(** ** The synchronous prefix of [request] *)

Lemma timeout_override_Some (conn : Connection)
    (params : ConnectionRequestParams) (t : Z) :
  timeout_override conn params = Some t
  ↔ params_timeout params = Some t ∧ t ≠ timeout (base conn).
Proof.
  unfold timeout_override. destruct (params_timeout params) as [t'|].
  - destruct (decide (t' = timeout (base conn))) as [->|Hne].
    + rewrite bool_decide_eq_false_2 by (by intros ?).
      split; [done | by intros [[= <-] ?]].
    + rewrite bool_decide_eq_true_2 by done.
      split; [by intros [= <-] | by intros [? _]].
  - split; [done | by intros [? _]].
Qed.

Lemma timeout_override_None (conn : Connection)
    (params : ConnectionRequestParams) :
  timeout_override conn params = None
  ↔ params_timeout params = None
    ∨ params_timeout params = Some (timeout (base conn)).
Proof.
  unfold timeout_override. destruct (params_timeout params) as [t'|].
  - destruct (decide (t' = timeout (base conn))) as [->|Hne].
    + rewrite bool_decide_eq_false_2 by (by intros ?). split; auto.
    + rewrite bool_decide_eq_true_2 by done.
      split; [done | by intros [?|[= ?]]].
  - split; auto.
Qed.

(** [arm] touches nothing but the allocator, the new [timedout] cell and
    the pending timers. *)
Lemma arm_frame (conn : Connection) (params : ConnectionRequestParams)
    (w : world) :
  let w' := (arm conn params w).1 in
  pools w' = pools w ∧ aborted w' = aborted w ∧ emitted w' = emitted w
  ∧ dispatched w' = dispatched w ∧ inflight w' = inflight w
  ∧ cancelled w' = cancelled w.
Proof. unfold arm. by destruct (timeout_override conn params). Qed.

Lemma request_begin_arm (conn : Connection)
    (params : ConnectionRequestParams) (w : world) :
  let '(w', a, _) := request_begin conn params w in
  a = (arm conn params w).2 ∧ timers w' = timers (arm conn params w).1
  ∧ timedout w' = timedout (arm conn params w).1.
Proof.
  unfold request_begin. destruct (arm conn params w) as [w1 a].
  by destruct (INVALID_PATH_REGEX_test _).
Qed.

(** What running a pending timer does, in any later world. *)
Lemma fire_pending (id : nat) (t : Timer) (w : world) :
  timers w !! id = Some t → fire id w = timeout_callback t (clearTimeout id w).
Proof. unfold fire. by intros ->. Qed.

Lemma timeout_callback_effects (t : Timer) (w : world) :
  let w' := timeout_callback t w in
  timedout w' = <[timer_timedout t := true]> (timedout w)
  ∧ timers w' = timers w
  ∧ match timer_controller t with
    | Some c => aborted w' = aborted w ∪ {[c]} ∧ emitted w' = emitted w
    | None => aborted w' = aborted w
              ∧ emitted w' = emitted w ++ [(timer_emitter t, lit "abort")]
    end.
Proof. unfold timeout_callback. by destruct (timer_controller t). Qed.

(** C8: the final path is [params.path], followed by a question mark and
    the querystring exactly when the querystring is neither null nor
    empty; the final headers are the connection's defaults with every key
    the call supplies taking the call's value.  The call hands exactly
    these, with the method and the body, to the pool, and it does so
    whenever the final path has no code unit outside 0x21-0xFF: the only
    calls that hand the pool nothing are those whose final path has
    one. *)
Theorem request_hands_normalized_params_to_pool
    (conn : Connection) (params : ConnectionRequestParams) (w : world) :
  let rp := requestParams conn params in
  rp_path rp = params_path params ++
               match params_querystring params with
               | Some (c :: q) => lit "?" ++ c :: q
               | _ => []
               end
  ∧ (∀ k, rp_headers rp !! k =
          match per_call_header params k with
          | Some v => Some v
          | None => headers (base conn) !! k
          end)
  ∧ rp_method rp = params_method params
  ∧ rp_body rp = params_body params
  ∧ match request_begin conn params w with
    | (w', a, Suspended) =>
        (∀ c, c ∈ rp_path rp → 0x21 ≤ c ∧ c ≤ 0xff)
        ∧ dispatched w' = dispatched w ++ [(pool conn, act_timedout a, rp)]
    | (w', _, Threw _) =>
        (∃ c, c ∈ rp_path rp ∧ (c < 0x21 ∨ 0xff < c))
        ∧ dispatched w' = dispatched w
    end.
Proof.
  intros rp. split_and!; try done.
  - unfold rp, requestParams, final_path; simpl.
    by destruct (params_querystring params) as [[|c q]|].
  - intros k. unfold rp, requestParams, final_headers, per_call_header; simpl.
    rewrite lookup_union.
    destruct (params_headers params) as [h|]; simpl.
    + destruct (h !! k), (headers (base conn) !! k); done.
    + rewrite lookup_empty. by destruct (headers (base conn) !! k).
  - unfold request_begin. pose proof (arm_frame conn params w) as Harm.
    destruct (arm conn params w) as [w1 a]. simpl in Harm.
    destruct Harm as (_ & _ & _ & Hd & _). fold rp.
    destruct (INVALID_PATH_REGEX_test (rp_path rp)) eqn:Htest.
    + split; [by apply INVALID_PATH_REGEX_test_true | by rewrite Hd].
    + split; [|simpl; by rewrite Hd].
      intros c Hc. split; apply N.le_ngt; intros Hout.
      * assert (INVALID_PATH_REGEX_test (rp_path rp) = true)
          by (apply INVALID_PATH_REGEX_test_true; eauto).
        congruence.
      * assert (INVALID_PATH_REGEX_test (rp_path rp) = true)
          by (apply INVALID_PATH_REGEX_test_true; eauto).
        congruence.
Qed.

(** C5: when the final path holds a code unit outside 0x21-0xFF,
    [request] throws a TypeError, which is none of the four domain
    errors, in its synchronous prefix, and no request is handed to the
    pool. *)
Theorem invalid_path_throws_before_transport
    (conn : Connection) (params : ConnectionRequestParams) (w : world)
    (c : N) :
  c ∈ final_path params → c < 0x21 ∨ 0xff < c →
  ∃ w' a e,
    request_begin conn params w = (w', a, Threw e)
    ∧ e = TypeError (lit "ERR_UNESCAPED_CHARACTERS: " ++ final_path params)
    ∧ is_domain_error e = false
    ∧ dispatched w' = dispatched w
    ∧ inflight w' = inflight w.
Proof.
  intros Hin Hc.
  assert (INVALID_PATH_REGEX_test (final_path params) = true) as Hbad
    by (apply INVALID_PATH_REGEX_test_true; eauto).
  unfold request_begin. pose proof (arm_frame conn params w) as Harm.
  destruct (arm conn params w) as [w1 a]. simpl in *. rewrite Hbad.
  destruct Harm as (_ & _ & _ & Hd & Hi & _).
  by eexists _, _, _.
Qed.

(** C2: a call arms a timer exactly when [params.timeout] is set and
    differs from the connection's timeout; the timer carries that
    duration; whenever it runs while still pending it leaves the pending
    set, the call's [timedout] is set first, and then cancellation is
    triggered on the caller's abort controller if one was supplied and on
    the connection's emitter otherwise.  Without an override the pending
    timers are left as they were. *)
Theorem timer_armed_iff_timeout_overridden
    (conn : Connection) (params : ConnectionRequestParams) (w : world) :
  let '(w', a, _) := request_begin conn params w in
  (is_Some (act_timeoutId a)
   ↔ ∃ t, params_timeout params = Some t ∧ t ≠ timeout (base conn))
  ∧ (act_timeoutId a = None → timers w' = timers w)
  ∧ (∀ id, act_timeoutId a = Some id →
       ∃ t, timers w' = <[id := t]> (timers w)
         ∧ params_timeout params = Some (timer_delay t)
         ∧ ∀ later, timers later !! id = Some t →
             ∃ marked,
               read_timedout a marked = true
               ∧ fire id later =
                   match params_abortController params with
                   | Some c => abort c marked
                   | None => emit (kEmitter conn) "abort" marked
                   end
               ∧ timers (fire id later) !! id = None
               ∧ read_timedout a (fire id later) = true
               ∧ match params_abortController params with
                 | Some c => c ∈ aborted (fire id later)
                             ∧ emitted (fire id later) = emitted later
                 | None => emitted (fire id later)
                           = emitted later ++ [(kEmitter conn, lit "abort")]
                           ∧ aborted (fire id later) = aborted later
                 end).
Proof.
  pose proof (request_begin_arm conn params w) as Hbegin.
  destruct (request_begin conn params w) as [[w' a] b].
  destruct Hbegin as (-> & -> & _). unfold arm.
  destruct (timeout_override conn params) as [delay|] eqn:Hover; simpl.
  - apply timeout_override_Some in Hover as [Hset Hne]. split_and!.
    + split; eauto.
    + done.
    + intros id [= <-]. eexists. split_and!; [done | done |].
      intros later Hpending. rewrite (fire_pending _ _ _ Hpending).
      unfold timeout_callback, read_timedout; simpl.
      exists (with_timedout (<[fresh w := true]> (timedout later))
                (clearTimeout (S (fresh w)) later)).
      split_and!.
      * simpl. by rewrite lookup_insert_eq.
      * reflexivity.
      * destruct (params_abortController params); simpl;
          apply lookup_delete_eq.
      * destruct (params_abortController params); simpl;
          by rewrite lookup_insert_eq.
      * destruct (params_abortController params); simpl;
          [split; [set_solver | done] | done].
  - apply timeout_override_None in Hover. split_and!.
    + split; [by intros [? ?]|]. intros (t & Ht & Hne).
      destruct Hover as [Hnone | Hsame]; congruence.
    + done.
    + intros id ?. done.
Qed.

(** C9: with an invalid path and a timeout override, the TypeError is
    thrown with the timer, armed for the override's duration, still
    pending and no request handed to the pool; whenever that timer later
    runs, the caller's abort controller is aborted if there is one, and
    the connection's emitter emits 'abort' otherwise. *)
Theorem invalid_path_leaves_timer_pending
    (conn : Connection) (params : ConnectionRequestParams) (w : world)
    (t : Z) :
  INVALID_PATH_REGEX_test (final_path params) = true →
  params_timeout params = Some t → t ≠ timeout (base conn) →
  ∃ w' a id pending m,
    request_begin conn params w = (w', a, Threw (TypeError m))
    ∧ act_timeoutId a = Some id
    ∧ timers w' !! id = Some pending
    ∧ timer_delay pending = t
    ∧ dispatched w' = dispatched w
    ∧ ∀ later, timers later !! id = Some pending →
        match params_abortController params with
        | Some c => c ∈ aborted (fire id later)
        | None => emitted (fire id later)
                  = emitted later ++ [(kEmitter conn, lit "abort")]
        end.
Proof.
  intros Hbad Hset Hne.
  assert (timeout_override conn params = Some t) as Hover
    by (by apply timeout_override_Some).
  unfold request_begin, arm. rewrite Hover. simpl. rewrite Hbad.
  eexists _, _, _, _, _. split; [reflexivity|]. simpl.
  split; [reflexivity|]. split; [apply lookup_insert_eq|].
  split; [reflexivity|]. split; [reflexivity|].
  intros later Hpending. rewrite (fire_pending _ _ _ Hpending).
  unfold timeout_callback; simpl.
  destruct (params_abortController params); simpl; [set_solver | done].
Qed.

(** ** Transport failures *)

Lemma clear_pending_timedout (a : Activation) (w : world) :
  timedout (clear_pending a (settle a w)) = timedout w.
Proof. unfold clear_pending. by destruct (act_timeoutId a). Qed.

Lemma request_rejected_classify (a : Activation) (err : TransportError)
    (w : world) :
  (request_rejected a err w).2 = classify (read_timedout a w) err.
Proof.
  unfold request_rejected, read_timedout; simpl.
  by rewrite clear_pending_timedout.
Qed.

(** C1: when the transport rejects the request, code UND_ERR_ABORTED
    becomes a TimeoutError if the call's [timedout] is set and a
    RequestAbortedError if it is not; code UND_ERR_HEADERS_TIMEOUT becomes
    a TimeoutError; every other rejection becomes a ConnectionError with
    the underlying message, and so does every error thrown while the
    body is read.  The class of the error thrown does not change with
    the message of the rejection. *)
Theorem transport_failure_classification
    (rt : Runtime) (a : Activation) (err : TransportError) (w : world) :
  let thrown := (request_rejected a err w).2 in
  (code err = Some (lit "UND_ERR_ABORTED") ∧ read_timedout a w = true →
     thrown = TimeoutError (lit "Request timed out"))
  ∧ (code err = Some (lit "UND_ERR_ABORTED") ∧ read_timedout a w = false →
     thrown = RequestAbortedError (lit "Request aborted"))
  ∧ (code err = Some (lit "UND_ERR_HEADERS_TIMEOUT") →
     thrown = TimeoutError (lit "Request timed out"))
  ∧ (code err ≠ Some (lit "UND_ERR_ABORTED")
     ∧ code err ≠ Some (lit "UND_ERR_HEADERS_TIMEOUT") →
     thrown = ConnectionError (message err))
  ∧ (∀ r, check_content_length rt (response_headers r) = None
          ∧ failure (body r) = Some err →
          (request_resolved rt a r w).2.2
          = Throw (ConnectionError (message err)))
  ∧ (∀ m, class_of (request_rejected a {| code := code err; message := m |} w).2
          = class_of thrown).
Proof.
  intros thrown. unfold thrown. rewrite request_rejected_classify.
  unfold classify. split_and!.
  - intros [-> ->]. done.
  - intros [-> ->]. done.
  - intros ->. done.
  - intros [Habort Hheaders].
    by rewrite !bool_decide_eq_false_2.
  - intros r [Hcheck Hfail]. unfold request_resolved, consume.
    rewrite Hcheck, Hfail. by destruct (isCompressed rt _).
  - intros m. rewrite request_rejected_classify. unfold classify; simpl.
    repeat case_bool_decide; by destruct (read_timedout a w).
Qed.

(** ** Response bodies *)

Section Responses.

Context (rt : Runtime).


Lemma number_gt_NaN (n : number) : number_gt NaN n = false.
Proof. done. Qed.

Lemma number_gt_of_Z_mono (n : number) (a b : Z) :
  (b ≤ a)%Z → number_gt n (of_Z a) = true → number_gt n (of_Z b) = true.
Proof.
  intros Hba. destruct n as [|neg|x]; simpl; [done | done |].
  rewrite !negb_true_iff, <- !not_true_iff_false, !Qle_bool_iff.
  intros Hgt Hle. apply Hgt. eapply Qle_trans; [exact Hle|].
  by rewrite <- Zle_Qle.
Qed.

(** On a runtime whose strings are capped no higher than its buffers, a
    declared length above either ceiling is refused for either kind of
    payload. *)
Lemma above_either_ceiling_is_refused (h : gmap jsstring jsstring)
    (v : jsstring) :
  (MAX_STRING_LENGTH rt ≤ MAX_BUFFER_LENGTH rt)%Z →
  h !! lit "content-length" = Some v →
  number_gt (Number rt v) (of_Z (MAX_BUFFER_LENGTH rt)) = true
  ∨ number_gt (Number rt v) (of_Z (MAX_STRING_LENGTH rt)) = true →
  is_Some (check_content_length rt h).
Proof.
  intros Hcaps Hlen Hbig. unfold check_content_length. rewrite Hlen.
  assert (number_gt (Number rt v) (of_Z (MAX_STRING_LENGTH rt)) = true)
    as Hstr.
  { destruct Hbig as [Hbuf|?]; [|done].
    by apply (number_gt_of_Z_mono _ (MAX_BUFFER_LENGTH rt)). }
  rewrite Hstr. by destruct (_ && _).
Qed.

Lemma consume_reads_every_chunk (r : Response) :
  filter (λ e, reads_body e = true) (consume rt r).1
  = map Read (chunks (body r))
  ∧ Destroy ∉ (consume rt r).1.
Proof.
  assert (∀ l : list (list byte),
             filter (λ e, reads_body e = true) (map Read l) = map Read l
             ∧ Destroy ∉ map Read l) as Hreads.
  { induction l as [|c l [IH1 IH2]]; [by split; [|apply not_elem_of_nil]|].
    split.
    - simpl. rewrite filter_cons_True by done. by rewrite IH1.
    - simpl. rewrite not_elem_of_cons. done. }
  unfold consume. destruct (isCompressed rt _); simpl.
  - apply Hreads.
  - rewrite filter_cons_False by done.
    rewrite not_elem_of_cons. by destruct (Hreads (chunks (body r))).
Qed.

End Responses.

(** Whatever the response, the world is left as [Resolved] leaves it. *)
Lemma request_resolved_world (rt : Runtime) (a : Activation) (r : Response)
    (w : world) :
  (request_resolved rt a r w).1 = step w (Resolved a).
Proof.
  unfold request_resolved; simpl.
  destruct (check_content_length rt (response_headers r)); [done|].
  by destruct (consume rt r).
Qed.

(** C3: when a content-length header is present, its value is turned
    into a number before anything is read; if the body is compressed and
    the number exceeds the buffer ceiling, or the number exceeds the
    string ceiling, the only thing done to the body stream is to destroy
    it, and a RequestAbortedError is thrown whose message holds the
    declared length and the ceiling it exceeds. *)
Theorem oversized_content_length_aborts_unread
    (rt : Runtime) (a : Activation) (r : Response) (w : world)
    (v : jsstring) :
  response_headers r !! lit "content-length" = Some v →
  isCompressed rt (response_headers r) = true
  ∧ number_gt (Number rt v) (of_Z (MAX_BUFFER_LENGTH rt)) = true
  ∨ number_gt (Number rt v) (of_Z (MAX_STRING_LENGTH rt)) = true →
  ∃ what ceiling,
    request_resolved rt a r w
    = (clear_pending a (settle a w),
       ([Destroy],
        Throw (RequestAbortedError
                 (lit "The content length (" ++ numberToString rt (Number rt v)
                  ++ lit ") is bigger than the maximum allowed " ++ lit what
                  ++ lit " (" ++ numberToString rt (of_Z ceiling)
                  ++ lit ")"))))
    ∧ number_gt (Number rt v) (of_Z ceiling) = true
    ∧ (what = "buffer"%string ∧ ceiling = MAX_BUFFER_LENGTH rt
       ∧ isCompressed rt (response_headers r) = true
       ∨ what = "string"%string ∧ ceiling = MAX_STRING_LENGTH rt).
Proof.
  intros Hlen Hbig. unfold request_resolved, check_content_length.
  rewrite Hlen.
  destruct (isCompressed rt (response_headers r)) eqn:Hcomp; simpl.
  - destruct (number_gt (Number rt v) (of_Z (MAX_BUFFER_LENGTH rt)))
      eqn:Hbuf.
    + exists "buffer"%string, (MAX_BUFFER_LENGTH rt).
      split; [reflexivity|]. auto.
    + destruct Hbig as [[_ ?]|Hstr]; [done|]. rewrite Hstr.
      exists "string"%string, (MAX_STRING_LENGTH rt).
      split; [reflexivity|]. auto.
  - destruct Hbig as [[? _]|Hstr]; [done|]. rewrite Hstr.
    exists "string"%string, (MAX_STRING_LENGTH rt).
    split; [reflexivity|]. auto.
Qed.

Lemma isCompressed_without_content_length (rt : Runtime) (r : Response) :
  isCompressed rt (response_headers (without_content_length r))
  = isCompressed rt (response_headers r).
Proof.
  unfold isCompressed, contentEncoding, without_content_length; simpl.
  by rewrite lookup_delete_ne.
Qed.

(** C10: when the content-length header is present and [Number] turns
    it into NaN, neither ceiling comparison holds: no size error is
    thrown, the stream is not destroyed, every chunk is read, and the
    call does to the stream and returns to the caller what it would with
    the header absent. *)
Theorem nan_content_length_passes_unchecked
    (rt : Runtime) (a : Activation) (r : Response) (w : world)
    (v : jsstring) :
  response_headers r !! lit "content-length" = Some v →
  Number rt v = NaN →
  number_gt (Number rt v) (of_Z (MAX_BUFFER_LENGTH rt)) = false
  ∧ number_gt (Number rt v) (of_Z (MAX_STRING_LENGTH rt)) = false
  ∧ check_content_length rt (response_headers r) = None
  ∧ ∃ effects res,
      request_resolved rt a r w = (clear_pending a (settle a w), (effects, res))
      ∧ (Destroy ∉ effects)
      ∧ filter (λ e, reads_body e = true) effects = map Read (chunks (body r))
      ∧ (request_resolved rt a (without_content_length r) w).2.1 = effects
      ∧ status_and_body (request_resolved rt a (without_content_length r) w).2.2
        = status_and_body res.
Proof.
  intros Hlen Hnan.
  assert (check_content_length rt (response_headers r) = None) as Hcheck.
  { unfold check_content_length. rewrite Hlen, Hnan. simpl.
    by rewrite andb_false_r. }
  rewrite Hnan. split_and!; [done | done | done |].
  unfold request_resolved at 1. rewrite Hcheck.
  pose proof (consume_reads_every_chunk rt r) as [Hreads Hkeep].
  destruct (consume rt r) as [effects res] eqn:Hconsume.
  exists (Diagnostic (lit "deserialization") :: effects), res.
  simpl in Hreads, Hkeep. split_and!.
  - done.
  - rewrite not_elem_of_cons. done.
  - by rewrite filter_cons_False.
  - unfold request_resolved, check_content_length; simpl.
    rewrite lookup_delete_eq. unfold consume in *.
    rewrite isCompressed_without_content_length. simpl.
    destruct (isCompressed rt (response_headers r));
      injection Hconsume as <- <-; done.
  - unfold request_resolved, check_content_length; simpl.
    rewrite lookup_delete_eq. unfold consume in *.
    rewrite isCompressed_without_content_length. simpl.
    destruct (isCompressed rt (response_headers r));
      injection Hconsume as <- <-; simpl; by destruct (failure (body r)).
Qed.

(** C6: a response that passes the length check and whose stream does
    not fail is returned with its status code and headers; its body is
    the concatenation of the raw chunks when the lower-cased
    content-encoding header contains gzip or deflate, and the
    concatenation of the UTF-8 decoded chunks otherwise. *)
Theorem body_is_buffer_iff_gzip_or_deflate
    (rt : Runtime) (a : Activation) (r : Response) (w : world) :
  check_content_length rt (response_headers r) = None →
  failure (body r) = None →
  let encoding :=
    toLowerCase rt (default [] (response_headers r !! lit "content-encoding")) in
  let compressed :=
    ∃ pre post, encoding = pre ++ lit "gzip" ++ post
                ∨ encoding = pre ++ lit "deflate" ++ post in
  (isCompressed rt (response_headers r) = true ↔ compressed)
  ∧ ∃ b,
      (request_resolved rt a r w).2.2
      = Return {| res_statusCode := statusCode r;
                  res_headers := response_headers r;
                  res_body := b |}
      ∧ (compressed → b = BufferBody (concat (chunks (body r))))
      ∧ (¬ compressed
         → b = StringBody (concat (utf8Chunks rt (chunks (body r))))).
Proof.
  intros Hcheck Hfail encoding compressed.
  assert (isCompressed rt (response_headers r) = true ↔ compressed) as Hiff.
  { unfold isCompressed, contentEncoding, compressed. fold encoding.
    rewrite orb_true_iff, !includes_infix. split.
    - intros [(pre & post & ?)|(pre & post & ?)]; exists pre, post; auto.
    - intros (pre & post & [?|?]); [left|right]; by exists pre, post. }
  split; [done|].
  unfold request_resolved, consume. rewrite Hcheck, Hfail.
  destruct (isCompressed rt (response_headers r)) eqn:Hcomp; simpl.
  - eexists. split; [done|]. split; [done|].
    intros Hnot. destruct Hnot. by apply Hiff.
  - eexists. split; [done|]. split; [|done].
    intros Hyes. apply Hiff in Hyes. done.
Qed.

(** ** Cancellation across calls *)

(** Every request in flight on a signal is reached when it is
    triggered, and no request on another signal is. *)
Lemma elem_of_listeners (s : signal) (w : world) (call : nat) :
  call ∈ listeners s w ↔ inflight w !! call = Some s.
Proof.
  unfold listeners. rewrite elem_of_dom. split.
  - intros [s' Hs']. apply map_lookup_filter_Some in Hs' as [? Heq].
    simpl in Heq. by subst.
  - intros Hs. exists s. by apply map_lookup_filter_Some.
Qed.

Lemma trigger_cancels (s : signal) (w : world) (call : nat) :
  call ∈ cancelled (trigger s w)
  ↔ call ∈ cancelled w ∨ inflight w !! call = Some s.
Proof.
  unfold trigger; simpl. by rewrite elem_of_union, elem_of_listeners.
Qed.

(** Calls that bring no abort controller are all governed by the one
    emitter made in the constructor. *)
Lemma internal_signal_is_the_connection_emitter
    (conn : Connection) (p1 p2 : ConnectionRequestParams) :
  params_abortController p1 = None →
  params_abortController p2 = None →
  governing_signal conn p1 = governing_signal conn p2
  ∧ governing_signal conn p1 = EmitterSignal (kEmitter conn).
Proof. unfold governing_signal. by intros -> ->. Qed.

(** A timer bound to an abort controller reaches exactly the requests in
    flight on that controller's signal. *)
Lemma controller_timer_scope (id c : nat) (t : Timer) (w : world)
    (call : nat) :
  timers w !! id = Some t → timer_controller t = Some c →
  call ∈ cancelled (fire id w)
  ↔ call ∈ cancelled w ∨ inflight w !! call = Some (ControllerSignal c).
Proof.
  intros Hpending Hc. rewrite (fire_pending _ _ _ Hpending).
  unfold timeout_callback. rewrite Hc. unfold abort.
  by rewrite trigger_cancels.
Qed.

(** A timer bound to no abort controller reaches every request in flight
    on the connection's emitter. *)
Lemma emitter_timer_scope (id : nat) (t : Timer) (w : world) (call : nat) :
  timers w !! id = Some t → timer_controller t = None →
  call ∈ cancelled (fire id w)
  ↔ call ∈ cancelled w
    ∨ inflight w !! call = Some (EmitterSignal (timer_emitter t)).
Proof.
  intros Hpending Hc. rewrite (fire_pending _ _ _ Hpending).
  unfold timeout_callback. rewrite Hc. unfold emit.
  rewrite String.eqb_refl. by rewrite trigger_cancels.
Qed.

(** ** Interleavings *)

Lemma clear_pending_timers_subset (a : Activation) (w : world) id t :
  timers (clear_pending a (settle a w)) !! id = Some t →
  timers w !! id = Some t.
Proof.
  unfold clear_pending. destruct (act_timeoutId a) as [id'|]; simpl; [|done].
  intros Hlook. apply lookup_delete_Some in Hlook as [_ ?]. done.
Qed.

Lemma undisturbed_begin (conn : Connection)
    (params : ConnectionRequestParams) (w : world) :
  timers_allocated w →
  undisturbed (request_begin conn params w).1.2
    (request_begin conn params w).1.1.
Proof.
  intros Hw. pose proof (request_begin_arm conn params w) as Hbegin.
  assert (fresh (request_begin conn params w).1.1
          = fresh (arm conn params w).1) as Hfresh.
  { unfold request_begin. destruct (arm conn params w) as [w1 a1].
    by destruct (INVALID_PATH_REGEX_test _). }
  destruct (request_begin conn params w) as [[w' a] b]. simpl in *.
  destruct Hbegin as (-> & Htimers & Htimedout).
  unfold undisturbed, read_timedout, timers_allocated.
  rewrite Hfresh, Htimers, Htimedout. clear Hfresh Htimers Htimedout.
  unfold arm. destruct (timeout_override conn params) as [delay|]; simpl.
  - split; [lia|]. split; [by rewrite lookup_insert_eq|]. split_and!.
    + intros id t Hlook. apply lookup_insert_Some in Hlook
        as [[<- <-]|[_ Hlook]]; simpl; [lia|].
      apply Hw in Hlook. lia.
    + intros id t Hlook Hcell. apply lookup_insert_Some in Hlook
        as [[<- <-]|[_ Hlook]]; [done|].
      apply Hw in Hlook. lia.
    + intros id [= <-]. split; [lia|]. intros t.
      rewrite lookup_insert_eq. by intros [= <-].
  - split; [lia|]. split; [by rewrite lookup_insert_eq|]. split_and!.
    + intros id t Hlook. apply Hw in Hlook. lia.
    + intros id t Hlook Hcell. apply Hw in Hlook. lia.
    + done.
Qed.

Lemma undisturbed_step (a : Activation) (w : world) (ev : event) :
  (∀ id, act_timeoutId a = Some id → ev ≠ Fire id) →
  undisturbed a w → undisturbed a (step w ev).
Proof.
  intros Hown (Hcell & Hflag & Hw & Honly & Hmine).
  unfold undisturbed, read_timedout, timers_allocated in *.
  destruct ev as [this opts | conn params | id | c | a' err | a']; simpl.
  - unfold Connection_new. repeat case_match; simpl; try done.
    split; [lia|]. split; [done|]. split_and!; [|done|].
    + intros id t Hlook. apply Hw in Hlook. lia.
    + intros id Hid. destruct (Hmine id Hid). split; [lia | done].
  - pose proof (request_begin_arm conn params w) as Hbegin.
    assert (fresh (request_begin conn params w).1.1
            = fresh (arm conn params w).1) as Hfresh.
    { unfold request_begin. destruct (arm conn params w) as [w1 a1].
      by destruct (INVALID_PATH_REGEX_test _). }
    destruct (request_begin conn params w) as [[w' a1] b]. simpl in *.
    destruct Hbegin as (_ & Htimers & Htimedout).
    rewrite Hfresh, Htimers, Htimedout. clear Hfresh Htimers Htimedout.
    unfold arm. destruct (timeout_override conn params) as [delay|]; simpl.
    + split; [lia|]. split; [rewrite lookup_insert_ne by lia; done|].
      split_and!.
      * intros id t Hlook. apply lookup_insert_Some in Hlook
          as [[<- <-]|[_ Hlook]]; simpl; [lia|].
        apply Hw in Hlook. lia.
      * intros id t Hlook Hsame. apply lookup_insert_Some in Hlook
          as [[<- <-]|[_ Hlook]]; simpl in *; [lia|]. eauto.
      * intros id Hid. destruct (Hmine id Hid) as [Hlt Hcells].
        split; [lia|]. intros t. rewrite lookup_insert_ne by lia. eauto.
    + split; [lia|]. split; [rewrite lookup_insert_ne by lia; done|].
      split_and!.
      * intros id t Hlook. apply Hw in Hlook. lia.
      * done.
      * intros id Hid. destruct (Hmine id Hid). split; [lia | done].
  - unfold fire. destruct (timers w !! id) as [t|] eqn:Hpending; [|done].
    assert (timer_timedout t ≠ act_timedout a) as Hother.
    { intros Hsame. apply (Hown id); [eauto | done]. }
    pose proof (timeout_callback_effects t (clearTimeout id w))
      as (Hflags & Htimers & _). simpl in Hflags, Htimers.
    rewrite Hflags, Htimers.
    assert (fresh (timeout_callback t (clearTimeout id w)) = fresh w) as ->.
    { unfold timeout_callback, emit. repeat case_match; done. }
    split; [done|]. split; [by rewrite lookup_insert_ne|]. split_and!.
    + intros id' t' Hlook. apply lookup_delete_Some in Hlook as [_ ?]. eauto.
    + intros id' t' Hlook. apply lookup_delete_Some in Hlook as [_ ?]. eauto.
    + intros id' Hid. destruct (Hmine id' Hid) as [Hlt Hcells].
      split; [done|]. intros t' Hlook.
      apply lookup_delete_Some in Hlook as [_ ?]. eauto.
  - done.
  - rewrite clear_pending_timedout.
    assert (fresh (clear_pending a' (settle a' w)) = fresh w) as ->.
    { unfold clear_pending. by destruct (act_timeoutId a'). }
    split; [done|]. split; [done|]. split_and!.
    + intros id t Hlook. apply clear_pending_timers_subset in Hlook. eauto.
    + intros id t Hlook. apply clear_pending_timers_subset in Hlook. eauto.
    + intros id Hid. destruct (Hmine id Hid) as [Hlt Hcells].
      split; [done|]. intros t Hlook.
      apply clear_pending_timers_subset in Hlook. eauto.
  - rewrite clear_pending_timedout.
    assert (fresh (clear_pending a' (settle a' w)) = fresh w) as ->.
    { unfold clear_pending. by destruct (act_timeoutId a'). }
    split; [done|]. split; [done|]. split_and!.
    + intros id t Hlook. apply clear_pending_timers_subset in Hlook. eauto.
    + intros id t Hlook. apply clear_pending_timers_subset in Hlook. eauto.
    + intros id Hid. destruct (Hmine id Hid) as [Hlt Hcells].
      split; [done|]. intros t Hlook.
      apply clear_pending_timers_subset in Hlook. eauto.
Qed.

(** Whatever else runs, a call's [timedout] stays false as long as its
    own timer has not run: no other call and no other timer sets it. *)
Lemma timedout_only_by_own_timer (a : Activation) (w : world)
    (evs : list event) :
  undisturbed a w →
  (∀ id, act_timeoutId a = Some id → Fire id ∉ evs) →
  undisturbed a (run evs w).
Proof.
  revert w. induction evs as [|ev evs IH]; intros w Hw Hown; [done|].
  simpl. apply IH.
  - apply undisturbed_step; [|done].
    intros id Hid ->. apply (Hown id Hid). left.
  - intros id Hid Hin. apply (Hown id Hid). by right.
Qed.

Lemma timed_out_step (a : Activation) (w : world) (ev : event) :
  timed_out a w → timed_out a (step w ev).
Proof.
  intros [Hcell Hflag]. unfold timed_out, read_timedout in *.
  destruct ev as [this opts | conn params | id | c | a' err | a']; simpl.
  - unfold Connection_new. repeat case_match; simpl; try done.
    split; [lia | done].
  - unfold request_begin, arm.
    destruct (timeout_override conn params), (INVALID_PATH_REGEX_test _);
      simpl; (split; [lia | by rewrite lookup_insert_ne by lia]).
  - unfold fire. destruct (timers w !! id) as [t|]; [|done].
    pose proof (timeout_callback_effects t (clearTimeout id w))
      as (Hflags & _). simpl in Hflags. rewrite Hflags.
    assert (fresh (timeout_callback t (clearTimeout id w)) = fresh w) as ->.
    { unfold timeout_callback, emit. repeat case_match; done. }
    split; [done|].
    destruct (decide (timer_timedout t = act_timedout a)) as [->|?].
    + by rewrite lookup_insert_eq.
    + by rewrite lookup_insert_ne.
  - done.
  - rewrite clear_pending_timedout. split; [|done].
    unfold clear_pending. by destruct (act_timeoutId a').
  - rewrite clear_pending_timedout. split; [|done].
    unfold clear_pending. by destruct (act_timeoutId a').
Qed.

Lemma timed_out_run (a : Activation) (w : world) (evs : list event) :
  timed_out a w → timed_out a (run evs w).
Proof.
  revert w. induction evs as [|ev evs IH]; intros w Hw; [done|].
  simpl. by apply IH, timed_out_step.
Qed.

(** The timeout scenario: the call's own timer runs while the request
    is in flight, the transport then reports the abort, and the call
    throws TimeoutError, whatever else ran before, between and after. *)
Lemma own_timer_then_abort_is_TimeoutError (a : Activation) (w : world)
    (before after : list event) (id : nat) (err : TransportError) :
  undisturbed a w → act_timeoutId a = Some id →
  Fire id ∉ before → is_Some (timers (run before w) !! id) →
  code err = Some (lit "UND_ERR_ABORTED") →
  (request_rejected a err (run after (fire id (run before w)))).2
  = TimeoutError (lit "Request timed out").
Proof.
  intros Hw Hid Hnot [t Hpending] Hcode.
  assert (undisturbed a (run before w)) as (Hcell & _ & _ & _ & Hmine).
  { apply timedout_only_by_own_timer; [done|].
    intros id' Hid'. rewrite Hid in Hid'. by injection Hid' as <-. }
  destruct (Hmine id Hid) as [_ Hcells].
  assert (timed_out a (fire id (run before w))) as Hfired.
  { rewrite (fire_pending _ _ _ Hpending).
    pose proof (timeout_callback_effects t (clearTimeout id (run before w)))
      as (Hflags & _). simpl in Hflags.
    unfold timed_out, read_timedout. rewrite Hflags, (Hcells t Hpending).
    rewrite lookup_insert_eq. split; [|done].
    unfold timeout_callback, emit. repeat case_match; done. }
  apply (timed_out_run _ _ after) in Hfired as [_ Hflag].
  rewrite request_rejected_classify, Hflag. unfold classify.
  by rewrite Hcode.
Qed.

(** The abort scenario: the call's own timer has not run, the transport
    reports an abort, and the call throws RequestAbortedError, whatever
    else ran in between. *)
Lemma abort_without_own_timer_is_RequestAbortedError (a : Activation)
    (w : world) (evs : list event) (err : TransportError) :
  undisturbed a w →
  (∀ id, act_timeoutId a = Some id → Fire id ∉ evs) →
  code err = Some (lit "UND_ERR_ABORTED") →
  (request_rejected a err (run evs w)).2
  = RequestAbortedError (lit "Request aborted").
Proof.
  intros Hw Hown Hcode.
  destruct (timedout_only_by_own_timer a w evs Hw Hown) as (_ & Hflag & _).
  rewrite request_rejected_classify, Hflag. unfold classify.
  by rewrite Hcode.
Qed.

(** Two calls on one connection, neither with an abort controller:
    when the timer of the first runs, the transport is told to abort the
    second as well, while the second call's [timedout] stays false. *)
Lemma emitter_timer_reaches_other_call (conn : Connection)
    (p1 p2 : ConnectionRequestParams) (w : world) :
  params_abortController p1 = None → params_abortController p2 = None →
  INVALID_PATH_REGEX_test (final_path p2) = false →
  let '(w1, a1, _) := request_begin conn p1 w in
  let '(w2, a2, _) := request_begin conn p2 w1 in
  ∀ id, act_timeoutId a1 = Some id →
        act_timedout a2 ∈ cancelled (fire id w2)
        ∧ read_timedout a2 (fire id w2) = false.
Proof.
  intros Hc1 Hc2 Hvalid. unfold request_begin, requestParams, arm. simpl.
  rewrite Hvalid.
  destruct (timeout_override conn p1) as [d1|]; simpl;
    destruct (INVALID_PATH_REGEX_test (final_path p1)); simpl;
    destruct (timeout_override conn p2) as [d2|]; simpl;
    intros id [= <-].
  all: unfold fire; simpl.
  all: repeat (rewrite lookup_insert_ne by lia).
  all: rewrite lookup_insert_eq.
  all: unfold timeout_callback, governing_signal, read_timedout; simpl.
  all: rewrite Hc1, Hc2; unfold emit; rewrite String.eqb_refl.
  all: split; [apply trigger_cancels; right; simpl; apply lookup_insert_eq|].
  all: simpl; rewrite lookup_insert_ne by lia; by rewrite lookup_insert_eq.
Qed.

Lemma timers_allocated_step (w : world) (ev : event) :
  timers_allocated w → timers_allocated (step w ev).
Proof.
  intros Hw. unfold timers_allocated in *.
  destruct ev as [this opts | conn params | id | c | a' err | a']; simpl.
  - unfold Connection_new. repeat case_match; simpl; try done.
    intros id t Hlook. apply Hw in Hlook. lia.
  - unfold request_begin, arm.
    destruct (timeout_override conn params), (INVALID_PATH_REGEX_test _);
      simpl; intros id t Hlook;
      try (apply lookup_insert_Some in Hlook as [[<- <-]|[_ Hlook]];
           simpl; [lia|]);
      apply Hw in Hlook; lia.
  - unfold fire. destruct (timers w !! id) as [t|] eqn:Hpending; [|done].
    pose proof (timeout_callback_effects t (clearTimeout id w))
      as (_ & Htimers & _). simpl in Htimers. rewrite Htimers.
    assert (fresh (timeout_callback t (clearTimeout id w)) = fresh w) as ->.
    { unfold timeout_callback, emit. repeat case_match; done. }
    intros id' t' Hlook. apply lookup_delete_Some in Hlook as [_ ?]. eauto.
  - done.
  - assert (fresh (clear_pending a' (settle a' w)) = fresh w) as ->.
    { unfold clear_pending. by destruct (act_timeoutId a'). }
    intros id t Hlook. apply clear_pending_timers_subset in Hlook. eauto.
  - assert (fresh (clear_pending a' (settle a' w)) = fresh w) as ->.
    { unfold clear_pending. by destruct (act_timeoutId a'). }
    intros id t Hlook. apply clear_pending_timers_subset in Hlook. eauto.
Qed.

(** Every world reached from the empty one has its timers allocated. *)
Lemma timers_allocated_run (evs : list event) :
  timers_allocated (run evs empty_world).
Proof.
  assert (∀ w, timers_allocated w → timers_allocated (run evs w)) as Hrun.
  { induction evs as [|ev evs IH]; intros w Hw; [done|].
    simpl. by apply IH, timers_allocated_step. }
  apply Hrun. intros id t Hlook. simpl in Hlook.
  by rewrite lookup_empty in Hlook.
Qed.

(** X12: a call started at any point of any history: as long as its
    own timer has not run, an abort reported by the transport is thrown
    as RequestAbortedError, whatever other calls, timers and callers do
    in between; once its own timer has run, as TimeoutError. *)
Lemma abort_is_classified_by_own_timer (history : list event)
    (conn : Connection) (params : ConnectionRequestParams)
    (err : TransportError) :
  code err = Some (lit "UND_ERR_ABORTED") →
  let '(w, a, _) := request_begin conn params (run history empty_world) in
  (∀ evs, (∀ id, act_timeoutId a = Some id → Fire id ∉ evs) →
          (request_rejected a err (run evs w)).2
          = RequestAbortedError (lit "Request aborted"))
  ∧ (∀ id before after,
       act_timeoutId a = Some id → Fire id ∉ before →
       is_Some (timers (run before w) !! id) →
       (request_rejected a err (run after (fire id (run before w)))).2
       = TimeoutError (lit "Request timed out")).
Proof.
  intros Hcode.
  pose proof (undisturbed_begin conn params (run history empty_world)
                (timers_allocated_run history)) as Hbegin.
  destruct (request_begin conn params (run history empty_world))
    as [[w a] b]. simpl in Hbegin. split.
  - intros evs Hown.
    by apply abort_without_own_timer_is_RequestAbortedError.
  - intros id before after Hid Hnot Hpending.
    by apply own_timer_then_abort_is_TimeoutError.
Qed.

(** ** Concrete runs *)

(** C4, on the code: two calls without abort controllers are in flight
    on one connection, and only the first overrides the timeout.  Both
    are given the emitter made in the constructor as their signal, so
    when the first call's timer runs, the transport is told to abort the
    second call too, and the second call, whose own [timedout] is still
    false, throws RequestAbortedError. *)
Theorem timeout_of_one_call_aborts_the_other :
  let '(w1, a1, b1) := request_begin node_connection
                         (get "/_search" None (Some 50%Z) None) node_world in
  let '(w2, a2, b2) := request_begin node_connection
                         (get "/_cat/health" None None None) w1 in
  let w3 := fire 3 w2 in
  Connection_new node plain_options empty_world
  = (node_world, Return node_connection)
  ∧ b1 = Suspended ∧ b2 = Suspended
  ∧ act_timeoutId a1 = Some 3%nat ∧ act_timeoutId a2 = None
  ∧ act_timedout a1 ≠ act_timedout a2
  ∧ inflight w2 !! act_timedout a1 = Some (EmitterSignal 0)
  ∧ inflight w2 !! act_timedout a2 = Some (EmitterSignal 0)
  ∧ (act_timedout a2 ∉ cancelled w2)
  ∧ act_timedout a2 ∈ cancelled w3
  ∧ read_timedout a2 w3 = false
  ∧ (request_rejected a2 UND_ERR_ABORTED w3).2
    = RequestAbortedError (lit "Request aborted").
Proof. vm_compute. split_and!; try reflexivity; discriminate. Qed.

Lemma invalid_path_throws_before_transport_witness :
  ∃ w' a e,
    request_begin node_connection spaced_path node_world = (w', a, Threw e)
    ∧ e = TypeError (lit "ERR_UNESCAPED_CHARACTERS: " ++ final_path spaced_path)
    ∧ is_domain_error e = false
    ∧ dispatched w' = dispatched node_world
    ∧ inflight w' = inflight node_world.
Proof.
  apply (invalid_path_throws_before_transport
           node_connection spaced_path node_world 0x20).
  - apply list_elem_of_In. vm_compute. tauto.
  - left. reflexivity.
Defined.

Lemma invalid_path_leaves_timer_pending_witness :
  ∃ w' a id pending m,
    request_begin node_connection spaced_path node_world
    = (w', a, Threw (TypeError m))
    ∧ act_timeoutId a = Some id
    ∧ timers w' !! id = Some pending
    ∧ timer_delay pending = 50%Z
    ∧ dispatched w' = dispatched node_world
    ∧ ∀ later, timers later !! id = Some pending →
        match params_abortController spaced_path with
        | Some c => c ∈ aborted (fire id later)
        | None => emitted (fire id later)
                  = emitted later ++ [(kEmitter node_connection, lit "abort")]
        end.
Proof.
  apply (invalid_path_leaves_timer_pending
           node_connection spaced_path node_world 50%Z).
  - vm_compute. reflexivity.
  - reflexivity.
  - vm_compute. discriminate.
Defined.

Lemma oversized_content_length_aborts_unread_witness :
  ∃ what ceiling,
    request_resolved sample_runtime idle huge_gzip node_world
    = (clear_pending idle (settle idle node_world),
       ([Destroy],
        Throw (RequestAbortedError
                 (lit "The content length ("
                  ++ numberToString sample_runtime
                       (Number sample_runtime (lit "99999999999"))
                  ++ lit ") is bigger than the maximum allowed " ++ lit what
                  ++ lit " (" ++ numberToString sample_runtime (of_Z ceiling)
                  ++ lit ")"))))
    ∧ number_gt (Number sample_runtime (lit "99999999999")) (of_Z ceiling)
      = true
    ∧ (what = "buffer"%string ∧ ceiling = MAX_BUFFER_LENGTH sample_runtime
       ∧ isCompressed sample_runtime (response_headers huge_gzip) = true
       ∨ what = "string"%string ∧ ceiling = MAX_STRING_LENGTH sample_runtime).
Proof.
  apply (oversized_content_length_aborts_unread
           sample_runtime idle huge_gzip node_world (lit "99999999999")).
  - vm_compute. reflexivity.
  - left. split; vm_compute; reflexivity.
Defined.

Lemma nan_content_length_passes_unchecked_witness :
  number_gt (Number sample_runtime (lit "twelve"))
    (of_Z (MAX_BUFFER_LENGTH sample_runtime)) = false
  ∧ number_gt (Number sample_runtime (lit "twelve"))
      (of_Z (MAX_STRING_LENGTH sample_runtime)) = false
  ∧ check_content_length sample_runtime (response_headers odd_length) = None
  ∧ ∃ effects res,
      request_resolved sample_runtime idle odd_length node_world
      = (clear_pending idle (settle idle node_world), (effects, res))
      ∧ (Destroy ∉ effects)
      ∧ filter (λ e, reads_body e = true) effects
        = map Read (chunks (body odd_length))
      ∧ (request_resolved sample_runtime idle
           (without_content_length odd_length) node_world).2.1 = effects
      ∧ status_and_body
          (request_resolved sample_runtime idle
             (without_content_length odd_length) node_world).2.2
        = status_and_body res.
Proof.
  apply (nan_content_length_passes_unchecked
           sample_runtime idle odd_length node_world (lit "twelve")).
  - vm_compute. reflexivity.
  - vm_compute. reflexivity.
Defined.

Lemma body_is_buffer_iff_gzip_or_deflate_witness :
  let encoding :=
    toLowerCase sample_runtime
      (default [] (response_headers small_json !! lit "content-encoding")) in
  let compressed :=
    ∃ pre post, encoding = pre ++ lit "gzip" ++ post
                ∨ encoding = pre ++ lit "deflate" ++ post in
  (isCompressed sample_runtime (response_headers small_json) = true
   ↔ compressed)
  ∧ ∃ b,
      (request_resolved sample_runtime idle small_json node_world).2.2
      = Return {| res_statusCode := statusCode small_json;
                  res_headers := response_headers small_json;
                  res_body := b |}
      ∧ (compressed → b = BufferBody (concat (chunks (body small_json))))
      ∧ (¬ compressed
         → b = StringBody
                 (concat (utf8Chunks sample_runtime
                            (chunks (body small_json))))).
Proof.
  apply (body_is_buffer_iff_gzip_or_deflate
           sample_runtime idle small_json node_world).
  - vm_compute. reflexivity.
  - reflexivity.
Defined.

(** The first scenario of the specification: a small JSON answer with
    a declared length comes back as text. *)
Example search_scenario :
  (request_resolved sample_runtime idle small_json node_world).2
  = ([Diagnostic (lit "deserialization"); SetEncoding (lit "utf8");
      Read ok_true],
     Return {| res_statusCode := 200;
               res_headers := {[ lit "content-length" := lit "11" ]};
               res_body := StringBody (map Byte.to_N ok_true) |}).
Proof. vm_compute. reflexivity. Qed.

(** The second scenario: a 50 ms override on a connection whose timeout
    is 30 s; the timer runs while the request is in flight, the
    transport reports the abort, and the call throws TimeoutError. *)
Example timeout_scenario :
  let '(w1, a, b) := request_begin node_connection
                       (get "/_search" None (Some 50%Z) None) node_world in
  b = Suspended
  ∧ act_timeoutId a = Some 3%nat
  ∧ (request_rejected a UND_ERR_ABORTED (fire 3 w1)).2
    = TimeoutError (lit "Request timed out")
  ∧ (request_rejected a UND_ERR_ABORTED w1).2
    = RequestAbortedError (lit "Request aborted").
Proof. vm_compute. split_and!; reflexivity. Qed.

(** The third scenario: a gzip answer declaring more than a buffer
    holds is refused with both numbers in the message, the header's
    case notwithstanding. *)
Example oversized_gzip_scenario :
  (request_resolved sample_runtime idle huge_gzip node_world).2
  = ([Destroy],
     Throw (RequestAbortedError
              (lit "The content length (99999999999) is bigger than the maximum allowed buffer (4294967296)"))).
Proof. vm_compute. reflexivity. Qed.

(** A caller's own controller keeps the timeout within the call: the
    same two calls as above, the first now bringing an abort controller,
    and the second is left alone when the first one's timer runs. *)
Example controller_keeps_timeout_within_call :
  let '(w1, a1, _) := request_begin node_connection
                        (get "/_search" None (Some 50%Z) (Some 7%nat))
                        node_world in
  let '(w2, a2, _) := request_begin node_connection
                        (get "/_cat/health" None None None) w1 in
  let w3 := fire 3 w2 in
  act_timedout a1 ∈ cancelled w3
  ∧ (act_timedout a2 ∉ cancelled w3)
  ∧ 7%nat ∈ aborted w3
  ∧ emitted w3 = [].
Proof. vm_compute. split_and!; try reflexivity; discriminate. Qed.

(** * Further properties of the code *)

(** ** The constructor *)

(** X1: the checks of the constructor run in a fixed order, so the
    message tells which one failed first: a non-null proxy is reported
    whatever the agent is, a function or boolean agent only when there
    is no proxy, and a reserved option only when the agent is an
    object. *)
Theorem constructor_reports_first_failed_check
    (this : BaseConnection) (opts : ConnectionOptions) (w : world) :
  let thrown := (Connection_new this opts w).2 in
  (not_nullish (opts_proxy opts) = true →
     thrown = Throw (ConfigurationError
                       (lit "Undici connection can't work with proxies")))
  ∧ (not_nullish (opts_proxy opts) = false
     ∧ function_or_boolean (opts_agent opts) = true →
     thrown = Throw (ConfigurationError
                       (lit "Undici connection agent options can't be a function or a boolean")))
  ∧ (∀ o k, not_nullish (opts_proxy opts) = false
            ∧ opts_agent opts = Some (AgentOptions o)
            ∧ k ∈ reserved_options ∧ not_nullish (prop o k) = true →
     thrown = Throw (ConfigurationError
                       (lit "Bad agent configuration for Undici agent"))).
Proof.
  intros thrown. unfold thrown, Connection_new. split_and!.
  - by intros ->.
  - by intros [-> ->].
  - intros o k (-> & -> & Hk & Hset). simpl.
    assert (isUndiciAgentOptions o = false) as ->
      by (apply isUndiciAgentOptions_false; eauto).
    done.
Qed.

Lemma pool_defaults_lookup (this : BaseConnection) :
  pool_defaults this !! lit "tls" = Some (ssl this)
  ∧ pool_defaults this !! lit "keepAliveTimeout" = Some (JNumber (of_Z 4000))
  ∧ pool_defaults this !! lit "keepAliveMaxTimeout"
    = Some (JNumber (of_Z 600000))
  ∧ pool_defaults this !! lit "keepAliveTimeoutThreshold"
    = Some (JNumber (of_Z 1000))
  ∧ pool_defaults this !! lit "pipelining" = Some (JNumber (of_Z 1))
  ∧ pool_defaults this !! lit "maxHeaderSize" = Some (JNumber (of_Z 16384))
  ∧ pool_defaults this !! lit "connections" = Some (JNumber (of_Z 256))
  ∧ pool_defaults this !! lit "headersTimeout"
    = Some (JNumber (of_Z (timeout this)))
  ∧ pool_defaults this !! lit "bodyTimeout"
    = Some (JNumber (of_Z (timeout this))).
Proof. split_and!; reflexivity. Qed.

Lemma pool_defaults_not_reserved (this : BaseConnection) (k : string) :
  k ∈ reserved_options → pool_defaults this !! lit k = None.
Proof.
  unfold reserved_options. intros Hk.
  repeat (apply elem_of_cons in Hk as [->|Hk]; [reflexivity|]).
  by apply elem_of_nil in Hk.
Qed.

(** X2: the options of the pool an accepted construction creates: every
    key the agent options hold, even with the value null or undefined,
    goes to the pool with the agent's value, and every other key has
    the constructor's default, the header and body timeouts being the
    connection's timeout. *)
Theorem pool_options_are_defaults_overridden_by_agent
    (this : BaseConnection) (opts : ConnectionOptions) (w : world) :
  match Connection_new this opts w with
  | (w', Return conn) =>
      ∃ created,
        last (pools w') = Some (pool conn, created)
        ∧ pool_url created = url this
        ∧ (∀ k v, agent_props (opts_agent opts) !! k = Some v →
                  pool_options created !! k = Some v)
        ∧ (∀ k, agent_props (opts_agent opts) !! k = None →
                pool_options created !! k = pool_defaults this !! k)
        ∧ (agent_props (opts_agent opts) !! lit "headersTimeout" = None →
           prop (pool_options created) "headersTimeout"
           = JNumber (of_Z (timeout this)))
        ∧ (agent_props (opts_agent opts) !! lit "bodyTimeout" = None →
           prop (pool_options created) "bodyTimeout"
           = JNumber (of_Z (timeout this)))
        ∧ (agent_props (opts_agent opts) !! lit "connections" = None →
           prop (pool_options created) "connections" = JNumber (of_Z 256))
        ∧ (agent_props (opts_agent opts) !! lit "pipelining" = None →
           prop (pool_options created) "pipelining" = JNumber (of_Z 1))
  | (_, Throw _) => True
  end.
Proof.
  unfold Connection_new.
  destruct (not_nullish (opts_proxy opts)); [done|].
  destruct (function_or_boolean (opts_agent opts)); [done|].
  destruct (_ && _); [done|]. simpl.
  eexists. split; [apply last_snoc|]. simpl.
  assert (∀ k, agent_props (opts_agent opts) !! k = None →
               (agent_props (opts_agent opts) ∪ pool_defaults this) !! k
               = pool_defaults this !! k) as Hdefault.
  { intros k Hk. rewrite lookup_union, Hk.
    by destruct (pool_defaults this !! k). }
  pose proof (pool_defaults_lookup this)
    as (_ & _ & _ & _ & Hpipe & _ & Hconn & Hhead & Hbody).
  split_and!; [done | | done | | | |].
  - intros k v Hk. by apply lookup_union_Some_l.
  - intros Hk. unfold prop. by rewrite (Hdefault _ Hk), Hhead.
  - intros Hk. unfold prop. by rewrite (Hdefault _ Hk), Hbody.
  - intros Hk. unfold prop. by rewrite (Hdefault _ Hk), Hconn.
  - intros Hk. unfold prop. by rewrite (Hdefault _ Hk), Hpipe.
Qed.

(** X3: no pool is ever created with a reserved option set: for every
    accepted construction, each of the six reserved options reads as
    null or undefined in the options the pool is given. *)
Theorem reserved_options_never_reach_the_pool
    (this : BaseConnection) (opts : ConnectionOptions) (w : world) :
  match Connection_new this opts w with
  | (w', Return conn) =>
      ∃ created,
        last (pools w') = Some (pool conn, created)
        ∧ ∀ k, k ∈ reserved_options →
               not_nullish (prop (pool_options created) k) = false
  | (_, Throw _) => True
  end.
Proof.
  unfold Connection_new.
  destruct (not_nullish (opts_proxy opts)); [done|].
  destruct (function_or_boolean (opts_agent opts)) eqn:Hkind; [done|].
  destruct (_ && _) eqn:Hbad; [done|]. simpl.
  eexists. split; [apply last_snoc|]. simpl. intros k Hk.
  destruct (not_nullish (prop (_ ∪ _) k)) eqn:Hset; [|done].
  unfold prop in Hset. rewrite lookup_union in Hset.
  rewrite (pool_defaults_not_reserved this k Hk) in Hset.
  destruct (opts_agent opts) as [[| b | o]|]; simpl in *; try done.
  apply negb_false_iff in Hbad.
  assert (isUndiciAgentOptions o = false) as Hno.
  { apply isUndiciAgentOptions_false. exists k. split; [done|].
    unfold prop. by destruct (o !! lit k). }
  congruence.
Qed.

(** X4: [isUndiciAgentOptions] looks at the six reserved options and at
    nothing else: setting any other option leaves its verdict as it
    was, and a reserved option set to null or undefined counts as
    absent. *)
Theorem isUndiciAgentOptions_reads_only_reserved_options
    (o : gmap jsstring jsvalue) (k : jsstring) (v : jsvalue) :
  ((∀ r, r ∈ reserved_options → k ≠ lit r) →
   isUndiciAgentOptions (<[k := v]> o) = isUndiciAgentOptions o)
  ∧ (not_nullish v = false →
     isUndiciAgentOptions (<[k := v]> o) = isUndiciAgentOptions (delete k o)).
Proof.
  assert (∀ o1 o2 : gmap jsstring jsvalue,
             (∀ r, r ∈ reserved_options →
                   not_nullish (prop o1 r) = not_nullish (prop o2 r)) →
             isUndiciAgentOptions o1 = isUndiciAgentOptions o2) as Hsame.
  { intros o1 o2 Hagree. unfold isUndiciAgentOptions.
    rewrite !Hagree by (unfold reserved_options; set_solver). done. }
  split.
  - intros Hother. apply Hsame. intros r Hr. unfold prop.
    rewrite lookup_insert_ne; [done|]. by apply Hother.
  - intros Hnull. apply Hsame. intros r Hr. unfold prop.
    destruct (decide (k = lit r)) as [->|Hne].
    + rewrite lookup_insert_eq, lookup_delete_eq. simpl. done.
    + by rewrite lookup_insert_ne, lookup_delete_ne.
Qed.

(** ** Starting a call *)

Lemma INVALID_PATH_REGEX_test_false (s : jsstring) :
  INVALID_PATH_REGEX_test s = false ↔ in_path_range s.
Proof.
  rewrite <- not_true_iff_false, INVALID_PATH_REGEX_test_true.
  unfold in_path_range. split.
  - intros Hnone c Hc. split; apply N.le_ngt; intros Hout; apply Hnone;
      exists c; auto.
  - intros Hall (c & Hc & Hout). destruct (Hall c Hc). lia.
Qed.

Lemma INVALID_PATH_REGEX_test_app (s1 s2 : jsstring) :
  INVALID_PATH_REGEX_test (s1 ++ s2)
  = INVALID_PATH_REGEX_test s1 || INVALID_PATH_REGEX_test s2.
Proof. apply existsb_app. Qed.

(** X5: a call is handed to the pool exactly when both [params.path]
    and the querystring, if there is one, hold only code units in
    0x21-0xFF; a bad querystring alone is enough for the TypeError, whose
    message then ends with the path and querystring as joined. *)
Theorem dispatched_iff_path_and_querystring_in_range
    (conn : Connection) (params : ConnectionRequestParams) (w : world) :
  let '(w', a, b) := request_begin conn params w in
  (b = Suspended
   ↔ in_path_range (params_path params)
     ∧ ∀ q, params_querystring params = Some q → in_path_range q)
  ∧ match b with
    | Suspended =>
        inflight w' = <[act_timedout a := governing_signal conn params]>
                        (inflight w)
    | Threw e =>
        e = TypeError (lit "ERR_UNESCAPED_CHARACTERS: " ++ final_path params)
        ∧ inflight w' = inflight w
    end.
Proof.
  assert (INVALID_PATH_REGEX_test (final_path params) = false
          ↔ in_path_range (params_path params)
            ∧ ∀ q, params_querystring params = Some q → in_path_range q)
    as Hvalid.
  { unfold final_path. rewrite INVALID_PATH_REGEX_test_app, orb_false_iff.
    rewrite INVALID_PATH_REGEX_test_false.
    destruct (params_querystring params) as [q|].
    - case_bool_decide as Hq.
      + subst q. split; [|by intros [? _]].
        intros [? _]. split; [done|]. intros q [= <-] c Hc.
        by apply elem_of_nil in Hc.
      + rewrite INVALID_PATH_REGEX_test_app, orb_false_iff.
        rewrite (INVALID_PATH_REGEX_test_false q). split.
        * intros [? [_ ?]]. split; [done|]. by intros q' [= <-].
        * intros [? Hq']. split; [done|]. split; [reflexivity | eauto].
    - split; [|by intros [? _]]. intros [? _]. split; [done|]. done. }
  unfold request_begin. pose proof (arm_frame conn params w) as Harm.
  destruct (arm conn params w) as [w1 a]. simpl in Harm.
  destruct Harm as (_ & _ & _ & _ & Hi & _).
  cbn [rp_path requestParams].
  destruct (INVALID_PATH_REGEX_test (final_path params)) eqn:Htest.
  - cbv iota beta. split; [|by rewrite Hi]. split; [done|].
    intros Hok. apply Hvalid in Hok. congruence.
  - cbv iota beta. split; [|simpl; by rewrite Hi]. split; [|done].
    intros _. by apply Hvalid.
Qed.

(** ** Settling a call *)

(** X6: when the transport settles a call, by rejecting or by
    resolving, the call's own timer and nothing else leaves the pending
    set; should the event loop still try to run that timer, nothing
    happens, so a settled call never marks itself timed out and never
    aborts the caller's controller afterwards.  Other calls' timers,
    every [timedout], and what was aborted, emitted, cancelled or
    dispatched stay as they were. *)
Theorem settling_clears_only_own_timer
    (rt : Runtime) (a : Activation) (err : TransportError) (r : Response)
    (w : world) :
  let w' := (request_rejected a err w).1 in
  (request_resolved rt a r w).1 = w'
  ∧ timers w' = match act_timeoutId a with
                | Some id => delete id (timers w)
                | None => timers w
                end
  ∧ (∀ id, act_timeoutId a = Some id → fire id w' = w')
  ∧ timedout w' = timedout w ∧ aborted w' = aborted w
  ∧ emitted w' = emitted w ∧ cancelled w' = cancelled w
  ∧ dispatched w' = dispatched w.
Proof.
  intros w'. unfold w'. split.
  { by rewrite request_resolved_world. }
  unfold request_rejected, clear_pending, settle; simpl.
  destruct (act_timeoutId a) as [id|]; simpl.
  - split_and!; try done.
    intros id' [= <-]. unfold fire; simpl. by rewrite lookup_delete_eq.
  - split_and!; done.
Qed.

(** ** What [request] can throw once the transport has resolved *)

(** X7: once the transport has resolved, [request] throws no
    TimeoutError, whatever the code of the error and whether or not the
    call's own timer had run; and a RequestAbortedError thrown then is
    always the one of the length check, never the report of an abort
    that came while the body was read. *)
Theorem no_timeout_error_once_resolved
    (rt : Runtime) (a : Activation) (r : Response) (w : world) :
  match (request_resolved rt a r w).2.2 with
  | Throw e =>
      class_of e ≠ IsTimeoutError
      ∧ (class_of e = IsRequestAbortedError
         ↔ check_content_length rt (response_headers r) = Some e)
  | Return _ => True
  end.
Proof.
  unfold request_resolved.
  destruct (check_content_length rt (response_headers r)) as [e|] eqn:Hc.
  - simpl. unfold check_content_length in Hc.
    assert (class_of e = IsRequestAbortedError) as Hclass.
    { repeat case_match; try done; by injection Hc as <-. }
    rewrite Hclass. done.
  - unfold consume. destruct (isCompressed rt _); simpl;
      destruct (failure (body r)) as [failed|]; simpl; done.
Qed.

(** X8: how a rejection is thrown, read backwards: TimeoutError means
    a header timeout or an abort after the call's own timer ran;
    RequestAbortedError means an abort with the timer not run;
    ConnectionError means any other code, or none. *)
Theorem rejection_class_iff (a : Activation) (err : TransportError)
    (w : world) :
  let thrown := (request_rejected a err w).2 in
  (class_of thrown = IsTimeoutError
   ↔ code err = Some (lit "UND_ERR_HEADERS_TIMEOUT")
     ∨ code err = Some (lit "UND_ERR_ABORTED") ∧ read_timedout a w = true)
  ∧ (class_of thrown = IsRequestAbortedError
     ↔ code err = Some (lit "UND_ERR_ABORTED") ∧ read_timedout a w = false)
  ∧ (class_of thrown = IsConnectionError
     ↔ code err ≠ Some (lit "UND_ERR_ABORTED")
       ∧ code err ≠ Some (lit "UND_ERR_HEADERS_TIMEOUT")).
Proof.
  intros thrown. unfold thrown. rewrite request_rejected_classify.
  assert (Some (lit "UND_ERR_ABORTED")
          ≠ Some (lit "UND_ERR_HEADERS_TIMEOUT")) as Hcodes by done.
  unfold classify.
  destruct (decide (code err = Some (lit "UND_ERR_ABORTED"))) as [Ha|Ha].
  - rewrite bool_decide_eq_true_2 by done.
    destruct (read_timedout a w); simpl; rewrite Ha; split_and!; split;
      try done; try (intros [?|[? ?]]; done); try (intros [? ?]; done);
      auto.
  - rewrite bool_decide_eq_false_2 by done.
    destruct (decide (code err = Some (lit "UND_ERR_HEADERS_TIMEOUT")))
      as [Hh|Hh].
    + rewrite bool_decide_eq_true_2 by done. simpl.
      split_and!; split; try done; auto; try (intros [? ?]; done).
    + rewrite bool_decide_eq_false_2 by done. simpl.
      split_and!; split; try done; try (intros [?|[? ?]]; done);
        try (intros [? ?]; done).
Qed.

(** ** Reading the response *)

Lemma check_content_length_None (rt : Runtime)
    (h : gmap jsstring jsstring) :
  check_content_length rt h = None
  ↔ ∀ v, h !! lit "content-length" = Some v →
         (isCompressed rt h
          && number_gt (Number rt v) (of_Z (MAX_BUFFER_LENGTH rt)) = false)
         ∧ number_gt (Number rt v) (of_Z (MAX_STRING_LENGTH rt)) = false.
Proof.
  unfold check_content_length.
  destruct (h !! lit "content-length") as [v|]; [|by split].
  destruct (_ && _) eqn:Hbuf.
  { split; [intros [=]|]. intros Hall.
    destruct (Hall v eq_refl) as [Hb _]. congruence. }
  destruct (number_gt (Number rt v) (of_Z (MAX_STRING_LENGTH rt))) eqn:Hstr.
  { split; [intros [=]|]. intros Hall.
    destruct (Hall v eq_refl) as [_ Hs]. congruence. }
  split; [|done]. intros _ v' [= <-]. by rewrite Hbuf, Hstr.
Qed.


(** X10: the status code is handed back and never looked at: under
    another status code the same effects occur and the same body or
    error results, so no status, 4xx and 5xx included, makes [request]
    throw. *)
Theorem status_code_is_not_inspected
    (rt : Runtime) (a : Activation) (r : Response) (w : world) (s : Z) :
  request_resolved rt a (with_statusCode s r) w
  = let '(w', (effects, res)) := request_resolved rt a r w in
    (w', (effects, with_res_statusCode s res)).
Proof.
  unfold request_resolved, consume, with_statusCode; simpl.
  destruct (check_content_length rt (response_headers r)); [done|].
  destruct (isCompressed rt (response_headers r));
    destruct (failure (body r)); done.
Qed.

Lemma number_gt_of_Z (x y : Z) :
  number_gt (of_Z x) (of_Z y) = true ↔ (y < x)%Z.
Proof.
  unfold number_gt, of_Z.
  rewrite negb_true_iff, <- not_true_iff_false, Qle_bool_iff, <- Zle_Qle.
  lia.
Qed.

(** X11: the ceilings are inclusive.  When the declared length is an
    integer, the length check lets the response through exactly when
    the length is at most the string ceiling and, on a compressed body,
    also at most the buffer ceiling. *)
Theorem integer_length_passes_up_to_the_ceilings
    (rt : Runtime) (h : gmap jsstring jsstring) (v : jsstring) (z : Z) :
  h !! lit "content-length" = Some v → Number rt v = of_Z z →
  check_content_length rt h = None
  ↔ (z ≤ MAX_STRING_LENGTH rt)%Z
    ∧ (isCompressed rt h = true → (z ≤ MAX_BUFFER_LENGTH rt)%Z).
Proof.
  intros Hlen Hz. rewrite check_content_length_None. split.
  - intros Hall. destruct (Hall v Hlen) as [Hbuf Hstr]. rewrite Hz in *.
    apply not_true_iff_false in Hstr. rewrite number_gt_of_Z in Hstr.
    split; [lia|]. intros Hc. rewrite Hc, andb_true_l in Hbuf.
    apply not_true_iff_false in Hbuf. rewrite number_gt_of_Z in Hbuf. lia.
  - intros [Hstr Hbuf] v' Hv'. rewrite Hlen in Hv'. injection Hv' as <-.
    rewrite Hz. split.
    + destruct (isCompressed rt h); [|done]. rewrite andb_true_l.
      apply not_true_iff_false. rewrite number_gt_of_Z.
      specialize (Hbuf eq_refl). lia.
    + apply not_true_iff_false. rewrite number_gt_of_Z. lia.
Qed.

(** A text response that declares exactly the string ceiling. *)
Lemma integer_length_passes_up_to_the_ceilings_witness :
  check_content_length sample_runtime
    {[ lit "content-length" := lit "536870888" ]} = None
  ↔ (536870888 ≤ MAX_STRING_LENGTH sample_runtime)%Z
    ∧ (isCompressed sample_runtime
         {[ lit "content-length" := lit "536870888" ]} = true
       → (536870888 ≤ MAX_BUFFER_LENGTH sample_runtime)%Z).
Proof.
  apply (integer_length_passes_up_to_the_ceilings sample_runtime
           {[ lit "content-length" := lit "536870888" ]}
           (lit "536870888") 536870888).
  - vm_compute. reflexivity.
  - vm_compute. reflexivity.
Defined.

(** ** Calls among other calls *)

(** X13: a timeout on a call that brought an abort controller is felt
    by exactly the calls in flight on that same controller: when the
    timer of such a call runs, a call started after it is told to abort
    if and only if it was given the same controller, nothing is emitted
    on the connection's emitter, and the other call's [timedout] stays
    false. *)
Theorem controller_timeout_reaches_only_its_controller
    (conn : Connection) (p1 p2 : ConnectionRequestParams) (w : world)
    (c : nat) :
  params_abortController p1 = Some c →
  INVALID_PATH_REGEX_test (final_path p2) = false →
  let '(w1, a1, _) := request_begin conn p1 w in
  let '(w2, a2, _) := request_begin conn p2 w1 in
  ∀ id, act_timeoutId a1 = Some id →
        (act_timedout a2 ∈ cancelled (fire id w2)
         ↔ act_timedout a2 ∈ cancelled w
           ∨ params_abortController p2 = Some c)
        ∧ emitted (fire id w2) = emitted w
        ∧ read_timedout a2 (fire id w2) = false.
Proof.
  intros Hc1 Hvalid. unfold request_begin, requestParams, arm. simpl.
  rewrite Hvalid.
  destruct (timeout_override conn p1) as [d1|]; simpl;
    destruct (INVALID_PATH_REGEX_test (final_path p1)); simpl;
    destruct (timeout_override conn p2) as [d2|]; simpl;
    intros id [= <-].
  all: unfold fire; simpl.
  all: repeat (rewrite lookup_insert_ne by lia).
  all: rewrite lookup_insert_eq.
  all: unfold timeout_callback, read_timedout; simpl.
  all: rewrite Hc1; unfold abort.
  all: split; [rewrite trigger_cancels; simpl; rewrite lookup_insert_eq;
               unfold governing_signal;
               destruct (params_abortController p2) as [c2|];
               split; intros [?|Heq]; auto; try done;
               injection Heq as ->; auto|].
  all: split; [done|].
  all: simpl; rewrite lookup_insert_ne by lia; by rewrite lookup_insert_eq.
Qed.

Lemma controller_timeout_reaches_only_its_controller_witness :
  (act_timedout health_call.1.2 ∈ cancelled (fire 3 health_call.1.1)
   ↔ act_timedout health_call.1.2 ∈ cancelled node_world
     ∨ params_abortController (get "/_cat/health" None None None)
       = Some 7%nat)
  ∧ emitted (fire 3 health_call.1.1) = emitted node_world
  ∧ read_timedout health_call.1.2 (fire 3 health_call.1.1) = false.
Proof.
  exact (controller_timeout_reaches_only_its_controller node_connection
           (get "/_search" None (Some 50%Z) (Some 7%nat))
           (get "/_cat/health" None None None) node_world 7%nat
           eq_refl eq_refl 3%nat eq_refl).
Defined.

(** The search call on the fresh node, with the transport reporting an
    abort. *)
Lemma abort_is_classified_by_own_timer_witness :
  let '(w, a, _) :=
    request_begin node_connection
      (get "/_search" None (Some 50%Z) (Some 7%nat))
      (run [Construct node plain_options] empty_world) in
  (∀ evs, (∀ id, act_timeoutId a = Some id → Fire id ∉ evs) →
          (request_rejected a UND_ERR_ABORTED (run evs w)).2
          = RequestAbortedError (lit "Request aborted"))
  ∧ (∀ id before after,
       act_timeoutId a = Some id → Fire id ∉ before →
       is_Some (timers (run before w) !! id) →
       (request_rejected a UND_ERR_ABORTED
          (run after (fire id (run before w)))).2
       = TimeoutError (lit "Request timed out")).
Proof.
  apply (abort_is_classified_by_own_timer
           [Construct node plain_options] node_connection
           (get "/_search" None (Some 50%Z) (Some 7%nat)) UND_ERR_ABORTED).
  reflexivity.
Defined.

Lemma step_dispatched (w : world) (ev : event) :
  ∃ more, dispatched (step w ev) = dispatched w ++ more
          ∧ (length more ≤ if starts_call ev then 1 else 0)%nat.
Proof.
  destruct ev as [this opts | conn params | id | c | a err | a]; simpl.
  - exists []. rewrite app_nil_r. split; [|simpl; lia].
    unfold Connection_new. by repeat case_match.
  - pose proof (arm_frame conn params w) as Harm. unfold request_begin.
    destruct (arm conn params w) as [w1 a]. simpl in Harm.
    destruct Harm as (_ & _ & _ & Hd & _).
    destruct (INVALID_PATH_REGEX_test _); simpl; rewrite Hd.
    + exists []. rewrite app_nil_r. split; [done | simpl; lia].
    + eexists. split; [done | simpl; lia].
  - exists []. rewrite app_nil_r. split; [|simpl; lia].
    unfold fire, timeout_callback, abort, emit, trigger.
    by repeat case_match.
  - exists []. rewrite app_nil_r. split; [done | simpl; lia].
  - exists []. rewrite app_nil_r. split; [|simpl; lia].
    unfold clear_pending. by destruct (act_timeoutId a).
  - exists []. rewrite app_nil_r. split; [|simpl; lia].
    unfold clear_pending. by destruct (act_timeoutId a).
Qed.

(** X14: nothing is retried.  Over any history, requests are handed to
    the pool only by calls being started, at most one for each: a
    rejection, a timer, an abort or a response never makes the
    connection issue a request, and what was handed over stays on
    record unchanged. *)
Theorem only_starting_a_call_dispatches (evs : list event) (w : world) :
  ∃ more, dispatched (run evs w) = dispatched w ++ more
          ∧ (length more
             ≤ length (filter (λ ev, starts_call ev = true) evs))%nat.
Proof.
  revert w. induction evs as [|ev evs IH]; intros w.
  - exists []. rewrite app_nil_r. split; [done | simpl; lia].
  - simpl. destruct (step_dispatched w ev) as (first & Hfirst & Hlen).
    destruct (IH (step w ev)) as (more & Hmore & Hcount).
    exists (first ++ more). rewrite Hmore, Hfirst, app_assoc.
    split; [done|]. rewrite length_app.
    destruct (starts_call ev) eqn:Hev.
    + rewrite filter_cons_True by done. simpl. lia.
    + rewrite filter_cons_False by (by rewrite Hev). lia.
Qed.
